(** * Authentication middleware of the product-transparency backend

    A shallow embedding of [backend/src/middleware/auth.js]: the token
    blacklist, [authenticateToken], [generateTokens], [revokeToken] and the
    clean-up callback that [revokeToken] hands to [setTimeout].

    Conventions.
    - [Date.now()] is an explicit argument [now], in milliseconds.  All the
      numbers the module computes with are integers far below 2^53, where
      JavaScript arithmetic is exact, so they are modelled in [Z];
      [Math.floor (x / 1000)] is [x / 1000] ([Z.div] rounds down).
    - The [jsonwebtoken] package is not part of the repository.  It is an
      interface ([jsonwebtoken]) the module is parameterised by; theorems
      that need a property of the package name it as a hypothesis
      ([jwt_sound]).  [RefJwt] is a small executable instance used to run
      the module on concrete requests.
    - The module-level [Set] is a list of distinct strings in insertion
      order ([JsSet]); pending [setTimeout] callbacks are counted in the
      state and fire as separate steps. *)

From stdpp Require Import strings list sets.
From Stdlib Require Import Ascii ZArith Lia DecimalString DecimalNat.

Local Open Scope Z_scope.

(** ** JavaScript strings *)

Module Js.

(** [s.split(sep)] for a one-character separator.  The result is never
    empty: [''.split(' ')] is [['']]. *)
Fixpoint split (sep : ascii) (s : string) : list string :=
  match s with
  | EmptyString => [EmptyString]
  | String c rest =>
      if Ascii.eqb c sep then EmptyString :: split sep rest
      else match split sep rest with
           | [] => [String c EmptyString]
           | w :: ws => String c w :: ws
           end
  end.

(** [a < b] and [a > b] on numbers, where [None] stands for [NaN]: every
    comparison with [NaN] is false. *)
Definition lt (a : option Z) (b : Z) : bool :=
  match a with Some x => x <? b | None => false end.

Definition gt (a : option Z) (b : Z) : bool :=
  match a with Some x => x >? b | None => false end.

(** No character of [s] is [c]. *)
Fixpoint lacks (c : ascii) (s : string) : bool :=
  match s with
  | EmptyString => true
  | String d rest => negb (Ascii.eqb d c) && lacks c rest
  end.

End Js.

(** ** JavaScript [Set] of strings

    A [Set] keeps its members in insertion order, each once. *)

Module JsSet.

Definition has (x : string) (s : list string) : bool :=
  existsb (String.eqb x) s.

Definition add (x : string) (s : list string) : list string :=
  if has x s then s else s ++ [x].

Definition delete (x : string) (s : list string) : list string :=
  filter (λ y, y ≠ x) s.

Definition size (s : list string) : nat := length s.

End JsSet.

(** ** The [jsonwebtoken] interface *)

(** The claims object: [{ id, email, iat }] as [generateTokens] builds it,
    plus the [exp] that [jwt.sign] adds.  A missing numeric claim is [None]
    (reading it in JavaScript gives [undefined], and arithmetic on it [NaN]). *)
Record payload := Payload {
  pl_id : Z;
  pl_email : string;
  pl_iat : option Z;
  pl_exp : option Z
}.

(** What [jwt.verify(token, secret, callback)] passes to its callback:
    [(null, user)] or [(err, undefined)] with [err.name]. *)
Inductive verify_result :=
  | VerifyOk (user : payload)
  | VerifyErr (name : string).

(** What [jwt.decode(token)] does: it throws, returns [null] (or another
    falsy value), or returns a truthy value whose [iat] property, as a
    number, is [iat] ([None] when absent or not a number). *)
Inductive decode_result :=
  | DecodeThrow
  | DecodeNull
  | DecodeOk (iat : option Z).

(** [jwt_sign payload secret expiresIn]: [expiresIn] in seconds (['24h'] is
    86400, ['7d'] is 604800).  The package stamps the token with the [iat]
    of the payload, which [generateTokens] always supplies from its own
    clock reading, so the token is a function of these three arguments.
    [jwt_verify token secret now] reads the clock. *)
Record jsonwebtoken := Jsonwebtoken {
  jwt_sign : payload → string → Z → string;
  jwt_verify : string → string → Z → verify_result;
  jwt_decode : string → decode_result
}.

(** The three module constants read from [process.env] at start-up. *)
Record env := Env {
  JWT_SECRET : string;
  JWT_EXPIRES_IN : Z;
  JWT_REFRESH_SECRET : string
}.

(** The payload [jwt.sign] puts into the token: the given one with
    [exp = iat + expiresIn]. *)
Definition with_exp (p : payload) (expiresIn : Z) : payload :=
  {| pl_id := pl_id p; pl_email := pl_email p; pl_iat := pl_iat p;
     pl_exp := (λ i, i + expiresIn) <$> pl_iat p |}.

(** The part of the package's contract the module relies on when it verifies
    a token it signed itself: a token verifies under the secret it was
    signed with until its [exp], and is a non-empty string free of spaces
    (base64url segments joined by dots). *)
Record jwt_sound (jwt : jsonwebtoken) : Prop := {
  verify_sign : ∀ p secret expiresIn now i,
    pl_iat p = Some i → pl_exp p = None → now / 1000 < i + expiresIn →
    jwt_verify jwt (jwt_sign jwt p secret expiresIn) secret now
    = VerifyOk (with_exp p expiresIn);
  sign_lacks_space : ∀ p secret expiresIn,
    Js.lacks " " (jwt_sign jwt p secret expiresIn) = true;
  sign_nonempty : ∀ p secret expiresIn,
    jwt_sign jwt p secret expiresIn ≠ EmptyString
}.

(** ** The module *)

(** Module state: [tokenBlacklist] and the number of clean-up callbacks
    queued by [setTimeout] that have not run yet. *)
Record state := State {
  tokenBlacklist : list string;
  timers : nat
}.

Definition initial : state := {| tokenBlacklist := []; timers := 0 |}.

(** How [authenticateToken] ends: [req.user = user; next()] or
    [res.status(status).json({ error })]. *)
Inductive outcome :=
  | Next (user : payload)
  | Respond (status : Z) (error : string).

Record tokens := Tokens {
  accessToken : string;
  refreshToken : string
}.

(** The five rejections of the Authorization Gate, by the response the
    source sends for each. *)
Definition MissingToken : outcome := Respond 401 "Access token required".
Definition Revoked : outcome := Respond 401 "Token has been revoked".
Definition Expired : outcome := Respond 401 "Token expired".
Definition TooOld : outcome := Respond 401 "Token too old, please refresh".
Definition Invalid : outcome := Respond 403 "Invalid token".

Definition status_of (o : outcome) : option Z :=
  match o with Next _ => None | Respond st _ => Some st end.

Section Auth.

Context (jwt : jsonwebtoken) (cfg : env).

(** [authHeader && authHeader.split(' ')[1]]; [None] is [undefined]. *)
Definition bearer (authHeader : option string) : option string :=
  match authHeader with
  | None => None
  | Some h => if String.eqb h "" then Some h else Js.split " " h !! 1%nat
  end.

Definition authenticateToken
    (authHeader : option string) (now : Z) (st : state) : outcome :=
  match bearer authHeader with
  | None => Respond 401 "Access token required"
  | Some token =>
      if String.eqb token "" then Respond 401 "Access token required"
      else if JsSet.has token (tokenBlacklist st)
      then Respond 401 "Token has been revoked"
      else
        match jwt_verify jwt token (JWT_SECRET cfg) now with
        | VerifyErr name =>
            if String.eqb name "TokenExpiredError"
            then Respond 401 "Token expired"
            else Respond 403 "Invalid token"
        | VerifyOk user =>
            let tokenAge := (λ iat, now - iat * 1000) <$> pl_iat user in
            let maxAge := 24 * 60 * 60 * 1000 in
            if Js.gt tokenAge maxAge
            then Respond 401 "Token too old, please refresh"
            else Next user
        end
  end.

Definition generateTokens (userId : Z) (email : string) (now : Z) : tokens :=
  let payload :=
    {| pl_id := userId; pl_email := email;
       pl_iat := Some (now / 1000); pl_exp := None |} in
  {| accessToken := jwt_sign jwt payload (JWT_SECRET cfg) (JWT_EXPIRES_IN cfg);
     refreshToken := jwt_sign jwt payload (JWT_REFRESH_SECRET cfg) 604800 |}.

(** One iteration of the clean-up loop over [oldToken]. *)
Definition sweep_body (oneHourAgo : Z) (oldToken : string)
    (blacklist : list string) : list string :=
  match jwt_decode jwt oldToken with
  | DecodeThrow => JsSet.delete oldToken blacklist
  | DecodeNull => blacklist
  | DecodeOk iat =>
      if Js.lt ((λ i, i * 1000) <$> iat) oneHourAgo
      then JsSet.delete oldToken blacklist
      else blacklist
  end.

(** The callback given to [setTimeout].  The loop visits the members in
    insertion order; an iteration deletes nothing but the member it is
    visiting, so the members visited are those present when the loop
    starts. *)
Definition sweep (now : Z) (blacklist : list string) : list string :=
  let oneHourAgo := now - 60 * 60 * 1000 in
  foldl (λ remaining oldToken, sweep_body oneHourAgo oldToken remaining)
    blacklist blacklist.

Definition revokeToken (token : string) (st : state) : state :=
  let blacklist := JsSet.add token (tokenBlacklist st) in
  {| tokenBlacklist := blacklist;
     timers := if (JsSet.size blacklist mod 100 =? 0)%nat
               then S (timers st) else timers st |}.

(** What the process does, one turn of the event loop at a time: a call
    into the module, or a queued clean-up callback firing. *)
Inductive call :=
  | Authenticate (authHeader : option string)
  | Generate (userId : Z) (email : string)
  | Revoke (token : string)
  | Timer.

Inductive reply :=
  | Outcome (o : outcome)
  | Issued (t : tokens)
  | Done.

(** A turn at clock reading [now]. *)
Definition step (now : Z) (c : call) (st : state) : reply * state :=
  match c with
  | Authenticate authHeader => (Outcome (authenticateToken authHeader now st), st)
  | Generate userId email => (Issued (generateTokens userId email now), st)
  | Revoke token => (Done, revokeToken token st)
  | Timer =>
      match timers st with
      | O => (Done, st)
      | S n => (Done, {| tokenBlacklist := sweep now (tokenBlacklist st);
                         timers := n |})
      end
  end.

(** A run: turns with their clock readings, oldest first. *)
Definition run (turns : list (Z * call)) (st : state) : state :=
  foldl (λ st turn, (step turn.1 turn.2 st).2) st turns.

End Auth.

(** ** A reference instance of the [jsonwebtoken] interface

    Tokens are a tag ["J"] followed by a self-delimiting encoding of the
    claims and of the secret.  Nothing is secret about them: the instance
    only serves to run the module, with tokens that carry an [iat] and an
    [exp], are free of spaces, and are accepted under the secret they were
    made with.  As in the package, [decode] returns [null] for a string that
    is no token at all and throws when a token's body does not parse. *)

Module RefJwt.

Definition tag (c : ascii) (rest : string) : string := String c rest.

Fixpoint put_pos (p : positive) (k : string) : string :=
  match p with
  | xH => tag "e" k
  | xO q => tag "0" (put_pos q k)
  | xI q => tag "1" (put_pos q k)
  end.

Fixpoint get_pos (s : string) : option (positive * string) :=
  match s with
  | EmptyString => None
  | String c r =>
      if Ascii.eqb c "e" then Some (xH, r)
      else if Ascii.eqb c "0" then '(q, k) ← get_pos r; Some (xO q, k)
      else if Ascii.eqb c "1" then '(q, k) ← get_pos r; Some (xI q, k)
      else None
  end.

Definition put_Z (z : Z) (k : string) : string :=
  match z with
  | Z0 => tag "z" k
  | Zpos p => tag "p" (put_pos p k)
  | Zneg p => tag "n" (put_pos p k)
  end.

Definition get_Z (s : string) : option (Z * string) :=
  match s with
  | EmptyString => None
  | String c r =>
      if Ascii.eqb c "z" then Some (Z0, r)
      else if Ascii.eqb c "p" then '(q, k) ← get_pos r; Some (Zpos q, k)
      else if Ascii.eqb c "n" then '(q, k) ← get_pos r; Some (Zneg q, k)
      else None
  end.

Definition put_num (o : option Z) (k : string) : string :=
  match o with
  | None => tag "u" k
  | Some z => tag "s" (put_Z z k)
  end.

Definition get_num (s : string) : option (option Z * string) :=
  match s with
  | EmptyString => None
  | String c r =>
      if Ascii.eqb c "u" then Some (None, r)
      else if Ascii.eqb c "s" then '(z, k) ← get_Z r; Some (Some z, k)
      else None
  end.

Definition put_bit (b : bool) (k : string) : string :=
  tag (if b then "1" else "0") k.

Definition get_bit (c : ascii) : option bool :=
  if Ascii.eqb c "1" then Some true
  else if Ascii.eqb c "0" then Some false
  else None.

Definition put_char (c : ascii) (k : string) : string :=
  match c with
  | Ascii b0 b1 b2 b3 b4 b5 b6 b7 =>
      put_bit b0 (put_bit b1 (put_bit b2 (put_bit b3
        (put_bit b4 (put_bit b5 (put_bit b6 (put_bit b7 k)))))))
  end.

Fixpoint put_str (s : string) (k : string) : string :=
  match s with
  | EmptyString => tag "." k
  | String c r => tag "c" (put_char c (put_str r k))
  end.

Fixpoint get_str (s : string) : option (string * string) :=
  match s with
  | EmptyString => None
  | String t r =>
      if Ascii.eqb t "." then Some (EmptyString, r)
      else if Ascii.eqb t "c" then
        match r with
        | String a0 (String a1 (String a2 (String a3
            (String a4 (String a5 (String a6 (String a7 r'))))))) =>
            b0 ← get_bit a0; b1 ← get_bit a1; b2 ← get_bit a2;
            b3 ← get_bit a3; b4 ← get_bit a4; b5 ← get_bit a5;
            b6 ← get_bit a6; b7 ← get_bit a7;
            '(w, k) ← get_str r';
            Some (String (Ascii b0 b1 b2 b3 b4 b5 b6 b7) w, k)
        | _ => None
        end
      else None
  end.

Definition put_body (p : payload) (secret : string) : string :=
  put_Z (pl_id p) (put_str (pl_email p)
    (put_num (pl_iat p) (put_num (pl_exp p) (put_str secret EmptyString)))).

Definition get_body (s : string) : option (payload * string) :=
  '(i, s) ← get_Z s;
  '(e, s) ← get_str s;
  '(iat, s) ← get_num s;
  '(exp, s) ← get_num s;
  '(secret, s) ← get_str s;
  if String.eqb s "" then Some (Payload i e iat exp, secret) else None.

Definition sign (p : payload) (secret : string) (expiresIn : Z) : string :=
  tag "J" (put_body (with_exp p expiresIn) secret).

Definition expired (p : payload) (now : Z) : bool :=
  match pl_exp p with
  | Some e => e <=? now / 1000
  | None => false
  end.

Definition verify (token secret : string) (now : Z) : verify_result :=
  match token with
  | EmptyString => VerifyErr "JsonWebTokenError"
  | String h body =>
      if Ascii.eqb h "J" then
        match get_body body with
        | None => VerifyErr "JsonWebTokenError"
        | Some (p, signed_with) =>
            if negb (String.eqb signed_with secret)
            then VerifyErr "JsonWebTokenError"
            else if expired p now then VerifyErr "TokenExpiredError"
            else VerifyOk p
        end
      else VerifyErr "JsonWebTokenError"
  end.

Definition decode (token : string) : decode_result :=
  match token with
  | EmptyString => DecodeNull
  | String h body =>
      if Ascii.eqb h "J" then
        match get_body body with
        | None => DecodeThrow
        | Some (p, _) => DecodeOk (pl_iat p)
        end
      else DecodeNull
  end.

Definition lib : jsonwebtoken :=
  {| jwt_sign := sign; jwt_verify := verify; jwt_decode := decode |}.

End RefJwt.

(** ** Concrete runs *)

Module Scenario.

Definition cfg : env :=
  {| JWT_SECRET := "access-secret"; JWT_EXPIRES_IN := 86400;
     JWT_REFRESH_SECRET := "refresh-secret" |}.

(** 2023-11-14T22:13:20Z, and some later instants. *)
Definition t0 : Z := 1700000000000.
Definition hour : Z := 3600000.

(** The access token of user [n], issued at [t0]. *)
Definition token_of (n : nat) : string :=
  accessToken (generateTokens RefJwt.lib cfg (Z.of_nat n) "a@x.com" t0).

Definition bearer_of (n : nat) : option string :=
  Some ("Bearer " +:+ token_of n).

(** Users 1 to [n] log out at [now], in order. *)
Definition logouts (now : Z) (n : nat) : list (Z * call) :=
  (λ k, (now, Revoke (token_of k))) <$> seq 1 n.

(** The same deployment with [JWT_EXPIRES_IN=48h]. *)
Definition cfg48 : env :=
  {| JWT_SECRET := "access-secret"; JWT_EXPIRES_IN := 172800;
     JWT_REFRESH_SECRET := "refresh-secret" |}.

Definition token48 : string :=
  accessToken (generateTokens RefJwt.lib cfg48 1 "a@x.com" t0).

(** The blacklist after users 1 to 99 logged out at [t0]. *)
Definition ninety_nine : state := run RefJwt.lib cfg (logouts t0 99) initial.

End Scenario.


(** The test of one clean-up iteration: does the loop delete [oldToken]? *)
Definition swept (jwt : jsonwebtoken) (oneHourAgo : Z) (oldToken : string) : bool :=
  match jwt_decode jwt oldToken with
  | DecodeThrow => true
  | DecodeNull => false
  | DecodeOk iat => Js.lt ((λ i, i * 1000) <$> iat) oneHourAgo
  end.

(** Every clean-up that fires during [turns] spares [token]. *)
Definition spared (jwt : jsonwebtoken) (token : string) (turns : list (Z * call)) : Prop :=
  Forall (λ turn, turn.2 = Timer → swept jwt (turn.1 - 3600000) token = false) turns.

(** ** More of the package's contract *)

(** A token presented at or after its [exp] fails with
    [TokenExpiredError] ([clockTimestamp >= payload.exp]). *)
Definition jwt_expiring (jwt : jsonwebtoken) : Prop :=
  ∀ p secret expiresIn now i,
    pl_iat p = Some i → pl_exp p = None → i + expiresIn ≤ now / 1000 →
    jwt_verify jwt (jwt_sign jwt p secret expiresIn) secret now
    = VerifyErr "TokenExpiredError".

(** A token does not verify under another secret than the one it was signed
    with; the signature is checked before the expiry, so the error is a
    [JsonWebTokenError] at any time. *)
Definition jwt_keyed (jwt : jsonwebtoken) : Prop :=
  ∀ p secret secret' expiresIn now,
    secret ≠ secret' →
    jwt_verify jwt (jwt_sign jwt p secret expiresIn) secret' now
    = VerifyErr "JsonWebTokenError".

(** The number of [revokeToken] calls in a run. *)
Fixpoint revocations (turns : list (Z * call)) : nat :=
  match turns with
  | [] => 0
  | (_, Revoke _) :: rest => S (revocations rest)
  | _ :: rest => revocations rest
  end.

(** ** [POST /api/auth/logout] ([routes/auth.js])

    The route runs [authenticateToken] and, when it calls [next()], the
    handler, which revokes the token it reads from the header again. *)

Inductive http_reply :=
  | Rejected (status : Z) (error : string)
  | Message (text : string).

(** [req.headers['authorization']?.split(' ')[1]] *)
Definition logout_token (authHeader : option string) : option string :=
  h ← authHeader; Js.split " " h !! 1%nat.

Definition logout (jwt : jsonwebtoken) (cfg : env)
    (authHeader : option string) (now : Z) (st : state) : http_reply * state :=
  match authenticateToken jwt cfg authHeader now st with
  | Respond status error => (Rejected status error, st)
  | Next _ =>
      let st' :=
        match logout_token authHeader with
        | None => st
        | Some token =>
            if String.eqb token "" then st else revokeToken token st
        end in
      (Message "Logged out successfully", st')
  end.

(** What reaches the blacklist when the module is used through the routes
    only: logout requests, and queued clean-ups firing. *)
Inductive http_event :=
  | Logout (authHeader : option string)
  | Cleanup.

Definition serve (jwt : jsonwebtoken) (cfg : env)
    (now : Z) (e : http_event) (st : state) : state :=
  match e with
  | Logout authHeader => (logout jwt cfg authHeader now st).2
  | Cleanup => (step jwt cfg now Timer st).2
  end.

Definition serve_all (jwt : jsonwebtoken) (cfg : env)
    (events : list (Z * http_event)) (st : state) : state :=
  foldl (λ st ev, serve jwt cfg ev.1 ev.2 st) st events.

(** ** JavaScript values ([middleware/security.js])

    Request bodies as [JSON.parse] builds them.  A string is the list of its
    UTF-16 code units, so that [length], [substring] and [trim] count and
    cut as JavaScript does.  Numbers are only passed along: their carrier
    [number] is left open.  An object is its prototype ([None] for
    [Object.prototype], [Some VNull] for [null]) and its own enumerable
    properties in the order [Object.entries] lists them, with distinct
    keys; an array is the list of its items. *)

Section JsValues.

Context {number : Type}.

#[local] Unset Elimination Schemes.

Inductive value :=
  | VNull
  | VBool (b : bool)
  | VNum (n : number)
  | VStr (s : list N)
  | VArr (items : list value)
  | VObj (proto : option value) (props : list (list N * value)).

#[local] Set Elimination Schemes.

(** The code units of an ASCII literal. *)
Definition units (s : string) : list N :=
  N_of_ascii <$> String.list_ascii_of_string s.

(** [String(i)] for an array index. *)
Definition index_key (i : nat) : list N :=
  units (NilZero.string_of_uint (Nat.to_uint i)).

(** White space and line terminators, as [String.prototype.trim] removes
    them. *)
Definition is_space (c : N) : bool :=
  bool_decide (c ∈ [9; 10; 11; 12; 13; 32; 160; 5760; 8192; 8193; 8194; 8195;
                    8196; 8197; 8198; 8199; 8200; 8201; 8202; 8232; 8233;
                    8239; 8287; 12288; 65279]%N).

Fixpoint trim_start (s : list N) : list N :=
  match s with
  | c :: rest => if is_space c then trim_start rest else s
  | [] => []
  end.

Definition trim (s : list N) : list N :=
  reverse (trim_start (reverse (trim_start s))).

(** [obj[key] = v] on an object that still has the prototype it was created
    with, as [sanitized] has when a loop over distinct keys reaches the key
    [__proto__]: that key reaches the setter inherited from
    [Object.prototype], which replaces the prototype when [v] is an object
    or [null] and does nothing otherwise.  Any other key sets an own
    property, in place when it exists and at the end when it does not. *)
Fixpoint set_prop (key : list N) (v : value) (props : list (list N * value))
    : list (list N * value) :=
  match props with
  | [] => [(key, v)]
  | (k, old) :: rest =>
      if decide (k = key) then (k, v) :: rest
      else (k, old) :: set_prop key v rest
  end.

Definition assign (key : list N) (v : value) (obj : value) : value :=
  match obj with
  | VObj proto props =>
      if decide (key = units "__proto__") then
        match v with
        | VNull | VArr _ | VObj _ _ => VObj (Some v) props
        | _ => obj
        end
      else VObj proto (set_prop key v props)
  | _ => obj
  end.

(** [sanitizeInput] and [sanitizeObject].  [replace_script s] stands for the
    first [replace] of [sanitizeInput], which deletes every match of its
    script-element pattern: the work of the regular-expression engine. *)

Section Sanitize.

Context (replace_script : list N → list N).

(** The bound of [substring(0, 10000)]. *)
Definition max_length : nat := Z.to_nat 10000.

Definition sanitizeInput (input : value) : value :=
  match input with
  | VStr s =>
      VStr (take max_length
              (filter (λ c, c ≠ 60%N ∧ c ≠ 62%N) (replace_script (trim s))))
  | _ => input
  end.

Fixpoint sanitizeObject (obj : value) : value :=
  match obj with
  | VObj _ props =>
      (fix loop (entries : list (list N * value)) (sanitized : value) : value :=
         match entries with
         | [] => sanitized
         | (key, v) :: rest =>
             loop rest
               (assign key
                  match v with
                  | VStr _ => sanitizeInput v
                  | VNull | VArr _ | VObj _ _ => sanitizeObject v
                  | _ => v
                  end
                  sanitized)
         end) props (VObj None [])
  | VArr items =>
      (fix loop (i : nat) (entries : list value) (sanitized : value) : value :=
         match entries with
         | [] => sanitized
         | v :: rest =>
             loop (S i) rest
               (assign (index_key i)
                  match v with
                  | VStr _ => sanitizeInput v
                  | VNull | VArr _ | VObj _ _ => sanitizeObject v
                  | _ => v
                  end
                  sanitized)
         end) 0%nat items (VObj None [])
  | _ => obj
  end.

(** What one turn of either loop stores for the value [v]. *)
Definition sanitize_field (v : value) : value :=
  match v with
  | VStr _ => sanitizeInput v
  | VNull | VArr _ | VObj _ _ => sanitizeObject v
  | _ => v
  end.

End Sanitize.

(** [checkForInjection] of [securityMiddleware].  The four patterns are
    regular-expression literals with the [g] flag, created afresh by each
    call of the middleware; each carries a [lastIndex].  [regex_exec p s i]
    stands for the engine: the end of the first match of pattern [p] in [s]
    at or after index [i], if there is one. *)

Section Injection.

Context (regex_exec : nat → list N → nat → option nat).

(** [pattern.test(s)]: a match moves [lastIndex] to its end, a failure
    resets it to 0. *)
Definition test (p : nat) (s : list N) (lastIndex : list nat)
    : bool * list nat :=
  match regex_exec p s (default 0%nat (lastIndex !! p)) with
  | Some e => (true, <[p:=e]> lastIndex)
  | None => (false, <[p:=0%nat]> lastIndex)
  end.

(** [suspiciousPatterns.some(pattern => pattern.test(s))] *)
Fixpoint some_pattern (patterns : list nat) (s : list N) (lastIndex : list nat)
    : bool * list nat :=
  match patterns with
  | [] => (false, lastIndex)
  | p :: rest =>
      let '(found, lastIndex') := test p s lastIndex in
      if found then (true, lastIndex') else some_pattern rest s lastIndex'
  end.

Definition suspiciousPatterns : list nat := [0; 1; 2; 3]%nat.

Fixpoint checkForInjection (obj : value) (lastIndex : list nat)
    : bool * list nat :=
  match obj with
  | VStr s => some_pattern suspiciousPatterns s lastIndex
  | VArr items =>
      (fix some (values : list value) (lastIndex : list nat) :=
         match values with
         | [] => (false, lastIndex)
         | v :: rest =>
             let '(found, lastIndex') := checkForInjection v lastIndex in
             if found then (true, lastIndex') else some rest lastIndex'
         end) items lastIndex
  | VObj _ props =>
      (fix some (entries : list (list N * value)) (lastIndex : list nat) :=
         match entries with
         | [] => (false, lastIndex)
         | (_, v) :: rest =>
             let '(found, lastIndex') := checkForInjection v lastIndex in
             if found then (true, lastIndex') else some rest lastIndex'
         end) props lastIndex
  | _ => (false, lastIndex)
  end.

(** Some pattern matches [s] when searched from the start. *)
Definition matches (s : list N) : bool :=
  existsb (λ p, bool_decide (is_Some (regex_exec p s 0))) suspiciousPatterns.

(** Some string among the values of [obj], at any depth, matches. *)
Fixpoint suspicious (obj : value) : bool :=
  match obj with
  | VStr s => matches s
  | VArr items => existsb suspicious items
  | VObj _ props => existsb (λ entry, suspicious entry.2) props
  | _ => false
  end.

End Injection.

(** Every string of [v], at any depth and along prototypes, satisfies
    [ok]. *)
Fixpoint strings_all (ok : list N → bool) (v : value) : bool :=
  match v with
  | VStr s => ok s
  | VArr items => forallb (strings_all ok) items
  | VObj proto props =>
      match proto with Some p => strings_all ok p | None => true end
      && forallb (λ entry, strings_all ok entry.2) props
  | _ => true
  end.

(** No angle bracket and at most 10000 code units. *)
Definition tame (s : list N) : bool :=
  forallb (λ c, negb (N.eqb c 60) && negb (N.eqb c 62)) s
  && (length s <=? max_length)%nat.

End JsValues.

Arguments value : clear implicits.

(** ** [testConnection] ([config/database.js])

    [outcome i] is what the database does at the attempt numbered [i]:
    [pool.connect()] throws, [client.query] throws, or both succeed.  The
    function's effects on the pool and the clock are recorded in order. *)

Inductive attempt :=
  | ConnectFails
  | QueryFails
  | Succeeds.

Inductive db_event :=
  | Connected
  | Released
  | Slept (ms : Z).

(** The [for] loop from [i], with [left = retries - i] turns to go. *)
Fixpoint connection_loop (outcome : nat → attempt) (retries i left : nat)
    : bool * list db_event :=
  match left with
  | O => (false, [])
  | S left' =>
      match outcome i with
      | Succeeds => (true, [Connected; Released])
      | failure =>
          let connected :=
            match failure with QueryFails => [Connected] | _ => [] end in
          let slept :=
            if (i <? retries - 1)%nat then [Slept 2000] else [] in
          let '(result, events) :=
            connection_loop outcome retries (S i) left' in
          (result, connected ++ slept ++ events)
      end
  end.

Definition testConnection (retries : nat) (outcome : nat → attempt)
    : bool * list db_event :=
  connection_loop outcome retries 0 retries.

Definition is_sleep (e : db_event) : bool :=
  match e with Slept _ => true | _ => false end.

(** Clients taken from the pool and not given back. *)
Fixpoint checked_out (events : list db_event) : Z :=
  match events with
  | [] => 0
  | Connected :: rest => checked_out rest + 1
  | Released :: rest => checked_out rest - 1
  | Slept _ :: rest => checked_out rest
  end.

(** The attempts made before the first success among the first [n]. *)
Fixpoint attempts_made (outcome : nat → attempt) (i n : nat) : list attempt :=
  match n with
  | O => []
  | S n' =>
      match outcome i with
      | Succeeds => [Succeeds]
      | failure => failure :: attempts_made outcome (S i) n'
      end
  end.

(** ** [monitoringService.logRequest]

    The two counters, and the statistics line when one is printed: the
    counts it shows.  The percentage on the line and the alert that depends
    on it are floating-point values and are left out. *)

Record monitor := Monitor {
  errorCount : Z;
  successCount : Z
}.

Definition logRequest (success : bool) (m : monitor)
    : monitor * option (Z * Z) :=
  let m' :=
    if success
    then {| errorCount := errorCount m; successCount := successCount m + 1 |}
    else {| errorCount := errorCount m + 1; successCount := successCount m |} in
  if (errorCount m' + successCount m') mod 1000 =? 0
  then (m', Some (errorCount m', errorCount m' + successCount m'))
  else (m', None).

(** A sequence of requests: the final counters and the lines printed. *)
Definition logRequests (calls : list bool) (m : monitor)
    : monitor * list (Z * Z) :=
  foldl (λ acc success,
           let '(m', line) := logRequest success acc.1 in
           (m', acc.2 ++ from_option (λ l, [l]) [] line))
    (m, []) calls.

(** ** [GET /api/products/:id] ([routes/products.js])

    [findById] stands for [Product.findById]: the row, no row, or a thrown
    error. *)

Record product := Product {
  product_id : Z;
  product_name : string;
  product_user_id : option Z
}.

Inductive db_result :=
  | DbRow (p : product)
  | DbNone
  | DbThrows.

Inductive product_reply :=
  | ProductError (status : Z) (error : string)
  | ProductJson (p : product).

Definition getProduct (jwt : jsonwebtoken) (cfg : env)
    (findById : string → db_result)
    (authHeader : option string) (id : string) (now : Z) (st : state)
    : product_reply :=
  match authenticateToken jwt cfg authHeader now st with
  | Respond status error => ProductError status error
  | Next user =>
      match findById id with
      | DbThrows => ProductError 500 "Failed to fetch product"
      | DbNone => ProductError 404 "Product not found"
      | DbRow p =>
          if decide (product_user_id p = Some (pl_id user))
          then ProductJson p
          else ProductError 403 "Access denied"
      end
  end.

Definition query_failed (a : attempt) : bool :=
  match a with QueryFails => true | _ => false end.

(** [jwt.decode] reads back the [iat] a token was signed with. *)
Definition jwt_decodes (jwt : jsonwebtoken) : Prop :=
  ∀ p secret expiresIn,
    jwt_decode jwt (jwt_sign jwt p secret expiresIn) = DecodeOk (pl_iat p).

(** * Properties *)

(** ** [Set] operations *)

Section JsSetFacts.

Implicit Types (x y : string) (s : list string).

Lemma has_true x s : JsSet.has x s = true ↔ x ∈ s.
Proof.
  unfold JsSet.has. rewrite existsb_exists. split.
  - intros (y & Hy & Heq). apply String.eqb_eq in Heq. subst y.
    by apply list_elem_of_In.
  - intros Hx. exists x. split; [by apply list_elem_of_In | apply String.eqb_refl].
Qed.

Lemma has_false x s : JsSet.has x s = false ↔ x ∉ s.
Proof.
  rewrite <- has_true. destruct (JsSet.has x s); split; congruence.
Qed.

Lemma elem_of_add x y s : y ∈ JsSet.add x s ↔ y = x ∨ y ∈ s.
Proof.
  unfold JsSet.add. destruct (JsSet.has x s) eqn:Hx.
  - apply has_true in Hx. split; [by right | by intros [->|]].
  - rewrite elem_of_app, list_elem_of_singleton. tauto.
Qed.

Lemma add_present x s : x ∈ s → JsSet.add x s = s.
Proof. intros Hx. apply has_true in Hx. unfold JsSet.add. by rewrite Hx. Qed.

Lemma elem_of_delete x y s : y ∈ JsSet.delete x s ↔ y ≠ x ∧ y ∈ s.
Proof. unfold JsSet.delete. by rewrite list_elem_of_filter. Qed.

Lemma add_NoDup x s : NoDup s → NoDup (JsSet.add x s).
Proof.
  intros Hs. unfold JsSet.add. destruct (JsSet.has x s) eqn:Hx; [done|].
  apply has_false in Hx. apply NoDup_app. split_and!; [done| |apply NoDup_singleton].
  intros y Hy Hy'. apply list_elem_of_singleton in Hy'. by subst.
Qed.

Lemma delete_NoDup x s : NoDup s → NoDup (JsSet.delete x s).
Proof. apply NoDup_filter. Qed.

End JsSetFacts.

(** ** [split] *)

Section SplitFacts.

Implicit Types (sep : ascii) (s w rest : string).

Lemma split_nonempty sep s : Js.split sep s ≠ [].
Proof.
  destruct s as [|c s]; simpl; [done|].
  destruct (Ascii.eqb c sep); [done|]. by destruct (Js.split sep s).
Qed.

(** A word free of the separator, then the separator: the word is the
    first part and the rest is split on its own. *)
Lemma split_word sep w rest :
  Js.lacks sep w = true →
  Js.split sep (w +:+ String sep rest) = w :: Js.split sep rest.
Proof.
  induction w as [|c w IH]; simpl; intros Hw.
  - by rewrite Ascii.eqb_refl.
  - apply andb_true_iff in Hw as [Hc Hw]. apply negb_true_iff in Hc.
    rewrite Hc, (IH Hw). done.
Qed.

Lemma split_single sep w :
  Js.lacks sep w = true → Js.split sep w = [w].
Proof.
  induction w as [|c w IH]; simpl; intros Hw; [done|].
  apply andb_true_iff in Hw as [Hc Hw]. apply negb_true_iff in Hc.
  by rewrite Hc, (IH Hw).
Qed.

(** [(scheme + ' ' + rest).split(' ')[1]] is the first part of [rest]. *)
Lemma bearer_scheme scheme rest :
  Js.lacks " " scheme = true →
  bearer (Some (scheme +:+ String " " rest)) = head (Js.split " " rest).
Proof.
  intros Hs. unfold bearer.
  assert (String.eqb (scheme +:+ String " " rest) "" = false) as ->.
  { apply String.eqb_neq. by destruct scheme. }
  rewrite (split_word _ _ _ Hs). by destruct (Js.split " " rest).
Qed.

Lemma bearer_token scheme token :
  Js.lacks " " scheme = true → Js.lacks " " token = true →
  bearer (Some (scheme +:+ String " " token)) = Some token.
Proof.
  intros Hs Ht. by rewrite (bearer_scheme _ _ Hs), (split_single _ _ Ht).
Qed.

Lemma bearer_short h :
  (length (Js.split " " h) < 2)%nat →
  bearer (Some h) = None ∨ bearer (Some h) = Some EmptyString.
Proof.
  intros Hlen. unfold bearer.
  destruct (String.eqb_spec h "") as [->|_]; [by right|].
  left. apply lookup_ge_None. lia.
Qed.

End SplitFacts.

(** ** The clean-up *)

Section SweepFacts.

Context (jwt : jsonwebtoken).
Implicit Types (x token : string) (bl : list string).

Lemma sweep_body_swept oneHourAgo token bl :
  sweep_body jwt oneHourAgo token bl
  = if swept jwt oneHourAgo token then JsSet.delete token bl else bl.
Proof.
  unfold sweep_body, swept. by destruct (jwt_decode jwt token).
Qed.

Lemma elem_of_sweep_loop oneHourAgo x visit bl :
  x ∈ foldl (λ remaining oldToken, sweep_body jwt oneHourAgo oldToken remaining)
        bl visit
  ↔ x ∈ bl ∧ ¬ (x ∈ visit ∧ swept jwt oneHourAgo x = true).
Proof.
  revert bl. induction visit as [|a visit IH]; intros bl; simpl.
  - rewrite elem_of_nil. tauto.
  - rewrite IH, sweep_body_swept, elem_of_cons.
    destruct (swept jwt oneHourAgo a) eqn:Ha.
    + rewrite elem_of_delete. split.
      * intros [[Hne Hx] Hn]. split; [done|]. intros [[->|Hv] Hs]; tauto.
      * intros [Hx Hn]. split; [split; [|done]|]; [intros ->|]; tauto.
    + split.
      * intros [Hx Hn]. split; [done|]. intros [[->|Hv] Hs]; [congruence|tauto].
      * intros [Hx Hn]. split; [done|]. tauto.
Qed.

(** The members left by a clean-up at [now] are the members that fail the
    test. *)
Lemma elem_of_sweep now x bl :
  x ∈ sweep jwt now bl ↔ x ∈ bl ∧ swept jwt (now - 3600000) x = false.
Proof.
  unfold sweep. change (now - 60 * 60 * 1000) with (now - 3600000).
  rewrite elem_of_sweep_loop. destruct (swept jwt (now - 3600000) x); split.
  - intros [Hx Hn]. tauto.
  - intros [_ ?]. done.
  - tauto.
  - intros [Hx _]. split; [done|]. intros [_ ?]. done.
Qed.

Lemma swept_recent now token iat :
  jwt_decode jwt token = DecodeOk (Some iat) →
  now - 3600000 ≤ iat * 1000 →
  swept jwt (now - 3600000) token = false.
Proof.
  intros Hd Hle. unfold swept. rewrite Hd. simpl. apply Z.ltb_ge. lia.
Qed.

Lemma swept_stale now token :
  jwt_decode jwt token = DecodeThrow
  ∨ (∃ iat, jwt_decode jwt token = DecodeOk (Some iat)
            ∧ iat * 1000 < now - 3600000) →
  swept jwt (now - 3600000) token = true.
Proof.
  unfold swept. intros [-> | (iat & -> & Hlt)]; [done|].
  simpl. by apply Z.ltb_lt.
Qed.

End SweepFacts.

(** ** Runs *)

Section RunFacts.

Context (jwt : jsonwebtoken) (cfg : env).

Lemma run_app turns turns' st :
  run jwt cfg (turns ++ turns') st = run jwt cfg turns' (run jwt cfg turns st).
Proof. apply foldl_app. Qed.

Lemma revoke_listed token st : token ∈ tokenBlacklist (revokeToken token st).
Proof. simpl. apply elem_of_add. by left. Qed.

(** Revoking a listed token leaves the blacklist as it is. *)
Lemma revoke_again token st :
  token ∈ tokenBlacklist st →
  tokenBlacklist (revokeToken token st) = tokenBlacklist st.
Proof. intros Hin. simpl. by apply add_present. Qed.

(** A member stays listed through a run whose clean-ups all spare it. *)
Lemma run_keeps token turns st :
  token ∈ tokenBlacklist st → spared jwt token turns →
  token ∈ tokenBlacklist (run jwt cfg turns st).
Proof.
  intros Hin Hsp. revert st Hin.
  induction Hsp as [|[now c] turns Hturn _ IH]; intros st Hin; [done|].
  simpl. apply IH. destruct c; simpl; try done.
  - apply elem_of_add. by right.
  - destruct (timers st); [done|]. simpl.
    apply elem_of_sweep. split; [done|]. by apply Hturn.
Qed.

(** What [authenticateToken] answers once it has a token in hand. *)
Lemma authenticate_listed authHeader token now st :
  bearer authHeader = Some token → token ≠ EmptyString →
  token ∈ tokenBlacklist st →
  authenticateToken jwt cfg authHeader now st = Revoked.
Proof.
  intros Hb Hne Hin. unfold authenticateToken. rewrite Hb.
  apply String.eqb_neq in Hne. rewrite Hne.
  apply has_true in Hin. by rewrite Hin.
Qed.

Lemma authenticate_missing authHeader now st :
  bearer authHeader = None ∨ bearer authHeader = Some EmptyString →
  authenticateToken jwt cfg authHeader now st = MissingToken.
Proof. unfold authenticateToken. by intros [-> | ->]. Qed.

(** The answer depends on the header through [bearer] only. *)
Lemma authenticate_bearer authHeader authHeader' now st :
  bearer authHeader = bearer authHeader' →
  authenticateToken jwt cfg authHeader now st
  = authenticateToken jwt cfg authHeader' now st.
Proof. unfold authenticateToken. by intros ->. Qed.

End RunFacts.

(** ** The reference instance meets the contract *)

Module RefJwtFacts.
Import RefJwt.

Lemma get_pos_put p k : get_pos (put_pos p k) = Some (p, k).
Proof. induction p as [p IH|p IH|]; simpl; by rewrite ?IH. Qed.

Lemma get_Z_put z k : get_Z (put_Z z k) = Some (z, k).
Proof. destruct z; simpl; by rewrite ?get_pos_put. Qed.

Lemma get_num_put o k : get_num (put_num o k) = Some (o, k).
Proof. destruct o; simpl; by rewrite ?get_Z_put. Qed.

Lemma get_bit_put (b : bool) : get_bit (if b then "1" else "0")%char = Some b.
Proof. by destruct b. Qed.

Lemma get_str_put s k : get_str (put_str s k) = Some (s, k).
Proof.
  induction s as [|[b0 b1 b2 b3 b4 b5 b6 b7] s IH]; [done|].
  cbn [put_str put_char put_bit tag get_str].
  change (Ascii.eqb "c" ".") with false. change (Ascii.eqb "c" "c") with true.
  cbv iota. rewrite !get_bit_put, IH. done.
Qed.

Lemma get_body_put p secret :
  get_body (put_body p secret) = Some (p, secret).
Proof.
  unfold get_body, put_body.
  repeat (rewrite ?get_Z_put, ?get_str_put, ?get_num_put; cbn [mbind option_bind]).
  by destruct p.
Qed.

Lemma lacks_put_pos p k : Js.lacks " " (put_pos p k) = Js.lacks " " k.
Proof. induction p as [p IH|p IH|]; simpl; by rewrite ?IH. Qed.

Lemma lacks_put_Z z k : Js.lacks " " (put_Z z k) = Js.lacks " " k.
Proof. destruct z; simpl; by rewrite ?lacks_put_pos. Qed.

Lemma lacks_put_num o k : Js.lacks " " (put_num o k) = Js.lacks " " k.
Proof. destruct o; simpl; by rewrite ?lacks_put_Z. Qed.

Lemma lacks_put_bit (b : bool) k : Js.lacks " " (put_bit b k) = Js.lacks " " k.
Proof. by destruct b. Qed.

Lemma lacks_put_str s k : Js.lacks " " (put_str s k) = Js.lacks " " k.
Proof.
  induction s as [|[b0 b1 b2 b3 b4 b5 b6 b7] s IH]; [done|].
  cbn [put_str put_char]. unfold tag at 1. cbn [Js.lacks].
  rewrite !lacks_put_bit, IH. done.
Qed.

Lemma sound : jwt_sound lib.
Proof.
  split.
  - intros p secret expiresIn now i Hiat Hexp Hnow. simpl.
    unfold sign, verify, tag. change (Ascii.eqb "J" "J") with true. cbv iota.
    rewrite get_body_put, String.eqb_refl. simpl.
    unfold expired, with_exp. simpl. rewrite Hiat. simpl.
    assert ((i + expiresIn <=? now / 1000) = false) as ->; [|done].
    apply Z.leb_gt. lia.
  - intros p secret expiresIn. simpl. unfold sign, put_body, tag.
    cbn [Js.lacks].
    by rewrite lacks_put_Z, lacks_put_str, !lacks_put_num, lacks_put_str.
  - intros p secret expiresIn. simpl. unfold sign, tag. done.
Qed.

End RefJwtFacts.

(** ** The claims *)

(** C2.  Issue then verify: at the instant a token pair is issued, the
    Authorization Gate accepts the access token (presented as
    [Bearer <token>], the token not being blacklisted) and the identity it
    attaches carries the subject id the token was issued for.  The package
    is assumed to meet its contract and the configured access-token lifetime
    to be positive. *)
Theorem issue_then_verify jwt cfg userId email now st :
  jwt_sound jwt →
  0 < JWT_EXPIRES_IN cfg →
  JsSet.has (accessToken (generateTokens jwt cfg userId email now))
    (tokenBlacklist st) = false →
  ∃ user,
    authenticateToken jwt cfg
      (Some ("Bearer " +:+ accessToken (generateTokens jwt cfg userId email now)))
      now st = Next user
    ∧ pl_id user = userId.
Proof.
  intros Hjwt Hlife Hfree.
  set (p := {| pl_id := userId; pl_email := email;
               pl_iat := Some (now / 1000); pl_exp := None |}).
  exists (with_exp p (JWT_EXPIRES_IN cfg)). split; [|done].
  unfold authenticateToken, generateTokens in *. cbn [accessToken] in *.
  fold p in Hfree |- *.
  change ("Bearer " +:+ ?t) with ("Bearer" +:+ String " " t).
  rewrite bearer_token; [|done|apply (sign_lacks_space _ Hjwt)].
  pose proof (sign_nonempty _ Hjwt p (JWT_SECRET cfg) (JWT_EXPIRES_IN cfg)) as Hne.
  apply String.eqb_neq in Hne. rewrite Hne, Hfree.
  rewrite (verify_sign _ Hjwt p _ _ now (now / 1000)); [|done|done|lia].
  cbn [with_exp pl_iat p fmap option_fmap option_map Js.gt].
  assert ((now - now / 1000 * 1000 >? 24 * 60 * 60 * 1000) = false) as ->; [|done].
  rewrite Z.gtb_ltb. apply Z.ltb_ge. pose proof (Z.mod_pos_bound now 1000 eq_refl).
  pose proof (Z.div_mod now 1000). lia.
Qed.

Lemma issue_then_verify_witness :
  jwt_sound RefJwt.lib
  ∧ 0 < JWT_EXPIRES_IN Scenario.cfg
  ∧ JsSet.has (Scenario.token_of 1) (tokenBlacklist initial) = false
  ∧ ∃ user,
      authenticateToken RefJwt.lib Scenario.cfg (Scenario.bearer_of 1)
        Scenario.t0 initial = Next user
      ∧ pl_id user = 1.
Proof.
  split_and!; [apply RefJwtFacts.sound | reflexivity | reflexivity |].
  apply (issue_then_verify RefJwt.lib Scenario.cfg 1 "a@x.com" Scenario.t0 initial);
    [apply RefJwtFacts.sound | reflexivity | reflexivity].
Defined.

(** C3.  The blacklist is consulted before the signature: a request that
    presents a blacklisted token is answered [Revoked], whatever
    [jwt.verify] would have said about the token, and [Revoked] is none of
    [Invalid], [Expired], [TooOld]. *)
Theorem blacklist_checked_first jwt cfg authHeader token now st :
  bearer authHeader = Some token →
  token ≠ EmptyString →
  token ∈ tokenBlacklist st →
  authenticateToken jwt cfg authHeader now st = Revoked
  ∧ Revoked ≠ Invalid ∧ Revoked ≠ Expired ∧ Revoked ≠ TooOld.
Proof.
  intros Hb Hne Hin. split; [by apply authenticate_listed with token|]. by split_and!.
Qed.

Lemma blacklist_checked_first_witness :
  bearer (Some "Bearer not-a-jwt") = Some "not-a-jwt"
  ∧ "not-a-jwt" ≠ EmptyString
  ∧ "not-a-jwt" ∈ tokenBlacklist (revokeToken "not-a-jwt" initial)
  ∧ jwt_verify RefJwt.lib "not-a-jwt" (JWT_SECRET Scenario.cfg) Scenario.t0
    = VerifyErr "JsonWebTokenError"
  ∧ authenticateToken RefJwt.lib Scenario.cfg (Some "Bearer not-a-jwt")
      Scenario.t0 (revokeToken "not-a-jwt" initial) = Revoked.
Proof.
  split_and!; [reflexivity | done | apply revoke_listed | reflexivity |].
  apply (blacklist_checked_first RefJwt.lib Scenario.cfg
           (Some "Bearer not-a-jwt") "not-a-jwt" Scenario.t0
           (revokeToken "not-a-jwt" initial));
    [reflexivity | done | apply revoke_listed].
Defined.

(** C4.  Every request ends in exactly one way: the verified payload is
    attached and the request goes on, or one of five rejections is sent,
    [MissingToken], [Revoked], [Expired] and [TooOld] with status 401 and
    [Invalid] with status 403; the five are distinct responses. *)
Theorem gate_outcomes jwt cfg authHeader now st :
  ((∃ token user,
      bearer authHeader = Some token
      ∧ jwt_verify jwt token (JWT_SECRET cfg) now = VerifyOk user
      ∧ authenticateToken jwt cfg authHeader now st = Next user)
   ∨ authenticateToken jwt cfg authHeader now st
     ∈ [MissingToken; Revoked; Expired; TooOld; Invalid])
  ∧ status_of <$> [MissingToken; Revoked; Expired; TooOld; Invalid]
    = [Some 401; Some 401; Some 401; Some 401; Some 403]
  ∧ NoDup [MissingToken; Revoked; Expired; TooOld; Invalid].
Proof.
  split_and!; [|done|].
  - unfold authenticateToken.
    destruct (bearer authHeader) as [token|] eqn:Hb; [|right; set_solver].
    destruct (String.eqb token ""); [right; set_solver|].
    destruct (JsSet.has token (tokenBlacklist st)); [right; set_solver|].
    destruct (jwt_verify jwt token (JWT_SECRET cfg) now) as [user|name] eqn:Hv.
    + cbv zeta. destruct (Js.gt _ _); [right; set_solver|].
      left. by exists token, user.
    + destruct (String.eqb name "TokenExpiredError"); right; set_solver.
  - repeat (apply NoDup_cons; split;
      [rewrite ?elem_of_cons, elem_of_nil; intros H;
       repeat (destruct H as [H|H]; [discriminate H|]); exact H|]).
    apply NoDup_nil_2.
Qed.

(** C6.  The freshness window: a token that is not blacklisted and that
    [jwt.verify] accepts (signature and [exp] included) is still rejected
    with [TooOld] when [now - iat * 1000] exceeds 24 hours.  The bound is
    the constant 86400000 whatever [JWT_EXPIRES_IN] is, so a longer
    configured lifetime does not widen it. *)
Theorem too_old_rejected jwt cfg authHeader token now st user iat :
  bearer authHeader = Some token →
  token ≠ EmptyString →
  JsSet.has token (tokenBlacklist st) = false →
  jwt_verify jwt token (JWT_SECRET cfg) now = VerifyOk user →
  pl_iat user = Some iat →
  24 * 60 * 60 * 1000 < now - iat * 1000 →
  authenticateToken jwt cfg authHeader now st = TooOld.
Proof.
  intros Hb Hne Hfree Hv Hiat Hage. unfold authenticateToken.
  apply String.eqb_neq in Hne. rewrite Hb, Hne, Hfree, Hv, Hiat. simpl.
  assert ((now - iat * 1000 >? 24 * 60 * 60 * 1000) = true) as ->; [|done].
  rewrite Z.gtb_ltb. apply Z.ltb_lt. lia.
Qed.

Lemma too_old_rejected_witness :
  let now := Scenario.t0 + 25 * Scenario.hour in
  let user := {| pl_id := 1; pl_email := "a@x.com";
                 pl_iat := Some 1700000000; pl_exp := Some 1700172800 |} in
  bearer (Some ("Bearer " +:+ Scenario.token48)) = Some Scenario.token48
  ∧ Scenario.token48 ≠ EmptyString
  ∧ JsSet.has Scenario.token48 (tokenBlacklist initial) = false
  ∧ jwt_verify RefJwt.lib Scenario.token48 (JWT_SECRET Scenario.cfg48) now
    = VerifyOk user
  ∧ pl_iat user = Some 1700000000
  ∧ 24 * 60 * 60 * 1000 < now - 1700000000 * 1000
  ∧ authenticateToken RefJwt.lib Scenario.cfg48
      (Some ("Bearer " +:+ Scenario.token48)) now initial = TooOld.
Proof.
  cbv zeta.
  split_and!; [vm_compute; reflexivity | discriminate | reflexivity
              | vm_compute; reflexivity | reflexivity | reflexivity |].
  apply (too_old_rejected RefJwt.lib Scenario.cfg48
           (Some ("Bearer " +:+ Scenario.token48)) Scenario.token48
           (Scenario.t0 + 25 * Scenario.hour) initial
           {| pl_id := 1; pl_email := "a@x.com";
              pl_iat := Some 1700000000; pl_exp := Some 1700172800 |}
           1700000000);
    [vm_compute; reflexivity | discriminate | reflexivity
    | vm_compute; reflexivity | reflexivity | reflexivity].
Defined.

(** C7.  [revokeToken] is idempotent on the blacklist: a second call with
    the same token returns (the function is total), leaves the blacklist as
    the first call left it, and the token is a member. *)
Theorem revoke_idempotent token st :
  tokenBlacklist (revokeToken token (revokeToken token st))
  = tokenBlacklist (revokeToken token st)
  ∧ JsSet.has token (tokenBlacklist (revokeToken token (revokeToken token st)))
    = true.
Proof.
  pose proof (revoke_listed token st) as Hin.
  rewrite (revoke_again token (revokeToken token st) Hin).
  split; [done | by apply has_true].
Qed.

(** C9.  The scheme is not looked at: with any word in front of the first
    space, the token is the part after it, so [Basic <rest>] is answered as
    [Bearer <rest>] is; and a header of fewer than two parts is answered
    [MissingToken]. *)
Theorem scheme_not_checked jwt cfg scheme scheme' rest short now st :
  Js.lacks " " scheme = true →
  Js.lacks " " scheme' = true →
  (length (Js.split " " short) < 2)%nat →
  bearer (Some (scheme +:+ String " " rest)) = head (Js.split " " rest)
  ∧ authenticateToken jwt cfg (Some (scheme +:+ String " " rest)) now st
    = authenticateToken jwt cfg (Some (scheme' +:+ String " " rest)) now st
  ∧ authenticateToken jwt cfg (Some short) now st = MissingToken.
Proof.
  intros Hs Hs' Hshort. split_and!.
  - by apply bearer_scheme.
  - apply authenticate_bearer. by rewrite !bearer_scheme.
  - by apply authenticate_missing, bearer_short.
Qed.

Lemma scheme_not_checked_witness :
  Js.lacks " " "Basic" = true
  ∧ Js.lacks " " "Bearer" = true
  ∧ (length (Js.split " " "Bearer") < 2)%nat
  ∧ bearer (Some ("Basic " +:+ Scenario.token_of 1))
    = Some (Scenario.token_of 1)
  ∧ authenticateToken RefJwt.lib Scenario.cfg
      (Some ("Basic " +:+ Scenario.token_of 1)) Scenario.t0 initial
    = authenticateToken RefJwt.lib Scenario.cfg
        (Some ("Bearer " +:+ Scenario.token_of 1)) Scenario.t0 initial
  ∧ authenticateToken RefJwt.lib Scenario.cfg (Some "Bearer") Scenario.t0 initial
    = MissingToken.
Proof.
  pose proof (scheme_not_checked RefJwt.lib Scenario.cfg "Basic" "Bearer"
                (Scenario.token_of 1) "Bearer" Scenario.t0 initial
                eq_refl eq_refl) as H.
  split_and!; [reflexivity | reflexivity | simpl; lia | reflexivity | |].
  - apply H. simpl. lia.
  - apply H. simpl. lia.
Defined.

(** ** Claims about the clean-up *)

(** The blacklist of a reachable state lists each member once, so its
    length is the cardinality the source reads as [tokenBlacklist.size]. *)
Lemma sweep_NoDup jwt now bl : NoDup bl → NoDup (sweep jwt now bl).
Proof.
  unfold sweep. cbv zeta. generalize bl at 3. intros visit. revert bl.
  induction visit as [|a visit IH]; intros bl Hbl; simpl; [done|].
  apply IH. rewrite sweep_body_swept.
  destruct (swept jwt _ a); [by apply delete_NoDup | done].
Qed.

Lemma run_NoDup jwt cfg turns st :
  NoDup (tokenBlacklist st) → NoDup (tokenBlacklist (run jwt cfg turns st)).
Proof.
  revert st. induction turns as [|[now c] turns IH]; intros st Hst; [done|].
  simpl. apply IH. destruct c; simpl; try done.
  - by apply add_NoDup.
  - destruct (timers st); [done|]. simpl. by apply sweep_NoDup.
Qed.

Ltac spare :=
  repeat (constructor; [intros ?; first [discriminate | vm_compute; reflexivity | vm_compute; discriminate]|]);
  constructor.

(** C1, as the specification words it, fails: users 1 to 100 are issued
    tokens at [t0] and log out two hours later; the hundredth logout queues
    a clean-up, which finds every entry older than one hour and empties the
    blacklist; the token of user 100, revoked a moment ago and valid for
    another 22 hours, is accepted again. *)
Lemma revoked_token_accepted_again :
  let now := Scenario.t0 + 2 * Scenario.hour in
  let turns := Scenario.logouts now 100 ++ [(now, Timer)] in
  (now, Revoke (Scenario.token_of 100)) ∈ turns
  ∧ authenticateToken RefJwt.lib Scenario.cfg (Scenario.bearer_of 100) now
      (run RefJwt.lib Scenario.cfg (Scenario.logouts now 100) initial)
    = Revoked
  ∧ authenticateToken RefJwt.lib Scenario.cfg (Scenario.bearer_of 100) now
      (run RefJwt.lib Scenario.cfg turns initial)
    = Next {| pl_id := 100; pl_email := "a@x.com";
              pl_iat := Some 1700000000; pl_exp := Some 1700086400 |}.
Proof.
  cbv zeta. split_and!.
  - apply elem_of_app. left. unfold Scenario.logouts.
    apply (list_elem_of_fmap_2
             (λ k, (Scenario.t0 + 2 * Scenario.hour, Revoke (Scenario.token_of k)))
             (seq 1 100) 100%nat).
    apply elem_of_seq. lia.
  - vm_compute. reflexivity.
  - vm_compute. reflexivity.
Qed.

(** C1, amended.  Once a token has been passed to [revokeToken], every
    later request that presents it is answered [Revoked], whatever calls
    come in between and whatever the clock reads, as long as each clean-up
    that fires in between spares the token (its decoding does not throw and
    its [iat] is not more than one hour before the clean-up). *)
Theorem revoked_while_listed jwt cfg token before after authHeader now :
  bearer authHeader = Some token →
  token ≠ EmptyString →
  spared jwt token after →
  authenticateToken jwt cfg authHeader now
    (run jwt cfg after (revokeToken token (run jwt cfg before initial)))
  = Revoked.
Proof.
  intros Hb Hne Hsp. apply authenticate_listed with token; [done..|].
  apply run_keeps; [apply revoke_listed | done].
Qed.

Lemma revoked_while_listed_witness :
  let token := Scenario.token_of 100 in
  let after := [(Scenario.t0 + Scenario.hour, Timer);
                (Scenario.t0 + 2 * Scenario.hour, Revoke (Scenario.token_of 101))] in
  bearer (Scenario.bearer_of 100) = Some token
  ∧ token ≠ EmptyString
  ∧ spared RefJwt.lib token after
  ∧ authenticateToken RefJwt.lib Scenario.cfg (Scenario.bearer_of 100)
      (Scenario.t0 + 3 * Scenario.hour)
      (run RefJwt.lib Scenario.cfg after
         (revokeToken token
            (run RefJwt.lib Scenario.cfg (Scenario.logouts Scenario.t0 99) initial)))
    = Revoked.
Proof.
  cbv zeta. split_and!; [vm_compute; reflexivity | discriminate | spare |].
  apply (revoked_while_listed RefJwt.lib Scenario.cfg (Scenario.token_of 100)
           (Scenario.logouts Scenario.t0 99)
           [(Scenario.t0 + Scenario.hour, Timer);
            (Scenario.t0 + 2 * Scenario.hour, Revoke (Scenario.token_of 101))]
           (Scenario.bearer_of 100) (Scenario.t0 + 3 * Scenario.hour));
    [vm_compute; reflexivity | discriminate | spare].
Defined.

(** C5, as the specification words it, fails: with 99 tokens listed, the
    string [not-a-jwt] is revoked; the blacklist has 100 members and a
    clean-up is queued.  [jwt.decode] returns [null] for that string, the
    test [decoded && ...] is false, and the clean-up, five hours later,
    deletes the 99 tokens and leaves the string that does not decode. *)
Lemma undecodable_entry_survives :
  let st := revokeToken "not-a-jwt" Scenario.ninety_nine in
  let now := Scenario.t0 + 5 * Scenario.hour in
  JsSet.size (tokenBlacklist st) = 100%nat
  ∧ timers st = 1%nat
  ∧ jwt_decode RefJwt.lib "not-a-jwt" = DecodeNull
  ∧ tokenBlacklist (step RefJwt.lib Scenario.cfg now Timer st).2 = ["not-a-jwt"].
Proof. cbv zeta. split_and!; vm_compute; reflexivity. Qed.

(** C5, amended.  When [revokeToken] leaves the blacklist with a multiple of
    100 members it queues a clean-up, and when that clean-up runs, at [now],
    no member remains whose decoding throws or whose decoded [iat] is more
    than one hour before [now]. *)
Theorem sweep_deletes_stale jwt cfg token st now member :
  (JsSet.size (tokenBlacklist (revokeToken token st)) mod 100 = 0)%nat →
  jwt_decode jwt member = DecodeThrow
  ∨ (∃ iat, jwt_decode jwt member = DecodeOk (Some iat)
            ∧ iat * 1000 < now - 3600000) →
  timers (revokeToken token st) = S (timers st)
  ∧ member ∉ tokenBlacklist (step jwt cfg now Timer (revokeToken token st)).2.
Proof.
  intros Hsize Hstale.
  assert (timers (revokeToken token st) = S (timers st)) as Htimers.
  { unfold revokeToken in *. cbn [tokenBlacklist timers] in *.
    apply Nat.eqb_eq in Hsize. by rewrite Hsize. }
  split; [done|]. unfold step. rewrite Htimers. cbn [snd tokenBlacklist].
  rewrite elem_of_sweep, (swept_stale _ _ _ Hstale). by intros [_ ?].
Qed.

Lemma sweep_deletes_stale_witness :
  let st := Scenario.ninety_nine in
  let now := Scenario.t0 + 2 * Scenario.hour in
  (JsSet.size (tokenBlacklist (revokeToken "Jx" st)) mod 100 = 0)%nat
  ∧ jwt_decode RefJwt.lib "Jx" = DecodeThrow
  ∧ jwt_decode RefJwt.lib (Scenario.token_of 7) = DecodeOk (Some 1700000000)
  ∧ timers (revokeToken "Jx" st) = S (timers st)
  ∧ ("Jx" ∉ tokenBlacklist
              (step RefJwt.lib Scenario.cfg now Timer (revokeToken "Jx" st)).2)
  ∧ (Scenario.token_of 7
     ∉ tokenBlacklist
         (step RefJwt.lib Scenario.cfg now Timer (revokeToken "Jx" st)).2).
Proof.
  cbv zeta.
  assert ((JsSet.size (tokenBlacklist (revokeToken "Jx" Scenario.ninety_nine))
           mod 100 = 0)%nat) as Hsize by (vm_compute; reflexivity).
  split_and!; [done | reflexivity | vm_compute; reflexivity | | |].
  - apply (sweep_deletes_stale RefJwt.lib Scenario.cfg "Jx"
             Scenario.ninety_nine (Scenario.t0 + 2 * Scenario.hour) "Jx" Hsize).
    left. reflexivity.
  - apply (sweep_deletes_stale RefJwt.lib Scenario.cfg "Jx"
             Scenario.ninety_nine (Scenario.t0 + 2 * Scenario.hour) "Jx" Hsize).
    left. reflexivity.
  - apply (sweep_deletes_stale RefJwt.lib Scenario.cfg "Jx"
             Scenario.ninety_nine (Scenario.t0 + 2 * Scenario.hour)
             (Scenario.token_of 7) Hsize).
    right. exists 1700000000. split; [vm_compute; reflexivity | reflexivity].
Defined.

(** C10.  A clean-up at [now] keeps every member whose decoded [iat] is at
    most one hour before [now]; so a revoked token stays listed through any
    run in which every clean-up fires within the hour that follows the
    token's [iat]. *)
Theorem sweep_keeps_recent jwt cfg token iat bl now before after :
  jwt_decode jwt token = DecodeOk (Some iat) →
  token ∈ bl →
  now - 3600000 ≤ iat * 1000 →
  Forall (λ turn, turn.2 = Timer → turn.1 ≤ iat * 1000 + 3600000) after →
  token ∈ sweep jwt now bl
  ∧ JsSet.has token
      (tokenBlacklist
         (run jwt cfg after (revokeToken token (run jwt cfg before initial))))
    = true.
Proof.
  intros Hd Hin Hnow Hafter. split.
  - apply elem_of_sweep. split; [done|]. by apply swept_recent with iat.
  - apply has_true, run_keeps; [apply revoke_listed|].
    unfold spared. eapply Forall_impl; [exact Hafter|].
    intros [t c] Ht Hc. simpl in *. apply swept_recent with iat; [done|].
    specialize (Ht Hc). lia.
Qed.

Lemma sweep_keeps_recent_witness :
  let token := Scenario.token_of 100 in
  let now := Scenario.t0 + Scenario.hour in
  let after := [(Scenario.t0 + 1800000, Timer); (now, Timer)] in
  jwt_decode RefJwt.lib token = DecodeOk (Some 1700000000)
  ∧ token ∈ [token]
  ∧ now - 3600000 ≤ 1700000000 * 1000
  ∧ Forall (λ turn, turn.2 = Timer → turn.1 ≤ 1700000000 * 1000 + 3600000) after
  ∧ token ∈ sweep RefJwt.lib now [token]
  ∧ JsSet.has token
      (tokenBlacklist
         (run RefJwt.lib Scenario.cfg after
            (revokeToken token
               (run RefJwt.lib Scenario.cfg (Scenario.logouts Scenario.t0 99)
                  initial))))
    = true.
Proof.
  cbv zeta.
  assert (Forall (λ turn : Z * call,
                    turn.2 = Timer → turn.1 ≤ 1700000000 * 1000 + 3600000)
            [(Scenario.t0 + 1800000, Timer);
             (Scenario.t0 + Scenario.hour, Timer)]) as Hafter.
  { repeat (constructor; [intros _; vm_compute; discriminate|]). constructor. }
  split_and!;
    [vm_compute; reflexivity | apply list_elem_of_singleton; reflexivity
    | vm_compute; discriminate | exact Hafter | |].
  - apply (sweep_keeps_recent RefJwt.lib Scenario.cfg (Scenario.token_of 100)
             1700000000 [Scenario.token_of 100] (Scenario.t0 + Scenario.hour)
             (Scenario.logouts Scenario.t0 99)
             [(Scenario.t0 + 1800000, Timer);
              (Scenario.t0 + Scenario.hour, Timer)]);
      [vm_compute; reflexivity | apply list_elem_of_singleton; reflexivity
      | vm_compute; discriminate | exact Hafter].
  - apply (sweep_keeps_recent RefJwt.lib Scenario.cfg (Scenario.token_of 100)
             1700000000 [Scenario.token_of 100] (Scenario.t0 + Scenario.hour)
             (Scenario.logouts Scenario.t0 99)
             [(Scenario.t0 + 1800000, Timer);
              (Scenario.t0 + Scenario.hour, Timer)]);
      [vm_compute; reflexivity | apply list_elem_of_singleton; reflexivity
      | vm_compute; discriminate | exact Hafter].
Defined.

(** ** Claims about issuing *)

(** C8, as the specification words it, fails: the same subject, e-mail and
    secrets give different token pairs one second apart, since the payload
    embeds [Math.floor(Date.now() / 1000)]. *)
Lemma same_inputs_other_tokens :
  generateTokens RefJwt.lib Scenario.cfg 1 "a@x.com" Scenario.t0
  ≠ generateTokens RefJwt.lib Scenario.cfg 1 "a@x.com" (Scenario.t0 + 1000).
Proof.
  intros H. apply (f_equal accessToken) in H. apply String.eqb_eq in H.
  vm_compute in H. discriminate H.
Qed.

(** C8, amended.  Issuing leaves the module state, the blacklist included,
    as it was, and the token pair is determined by the subject id, the
    e-mail, the configuration (both secrets and the access lifetime) and the
    clock reading in whole seconds: two calls within the same second give
    the same pair. *)
Theorem issue_deterministic jwt cfg userId email now now' st :
  now / 1000 = now' / 1000 →
  (step jwt cfg now (Generate userId email) st).2 = st
  ∧ generateTokens jwt cfg userId email now
    = generateTokens jwt cfg userId email now'.
Proof.
  intros Hsec. split; [done|]. unfold generateTokens. by rewrite Hsec.
Qed.

Lemma issue_deterministic_witness :
  Scenario.t0 / 1000 = (Scenario.t0 + 999) / 1000
  ∧ (step RefJwt.lib Scenario.cfg Scenario.t0 (Generate 1 "a@x.com")
       Scenario.ninety_nine).2 = Scenario.ninety_nine
  ∧ generateTokens RefJwt.lib Scenario.cfg 1 "a@x.com" Scenario.t0
    = generateTokens RefJwt.lib Scenario.cfg 1 "a@x.com" (Scenario.t0 + 999).
Proof.
  split; [reflexivity|].
  apply (issue_deterministic RefJwt.lib Scenario.cfg 1 "a@x.com"
           Scenario.t0 (Scenario.t0 + 999) Scenario.ninety_nine).
  reflexivity.
Defined.

(** * Further properties of the authentication module *)

Section ListFacts.

Context {A : Type}.
Implicit Types (l : list A).

Lemma filter_keep_all (P : A → Prop) `{!∀ x, Decision (P x)} l :
  (∀ x, x ∈ l → P x) → filter P l = l.
Proof.
  induction l as [|a l IH]; intros HP; [done|].
  rewrite filter_cons_True by (apply HP; left).
  f_equal. apply IH. intros x Hx. apply HP. by right.
Qed.

Lemma filter_ext_elem (P Q : A → Prop)
    `{!∀ x, Decision (P x), !∀ x, Decision (Q x)} l :
  (∀ x, x ∈ l → P x ↔ Q x) → filter P l = filter Q l.
Proof.
  induction l as [|a l IH]; intros HPQ; [done|].
  assert (filter P l = filter Q l) as Hl.
  { apply IH. intros x Hx. apply HPQ. by right. }
  destruct (decide (P a)) as [Ha|Ha].
  - rewrite !filter_cons_True; [by rewrite Hl| |done]. apply HPQ; [left|done].
  - rewrite !filter_cons_False; [done| |done]. intros Hq. apply Ha, HPQ; [left|done].
Qed.

End ListFacts.

Section GateFacts.

Context (jwt : jsonwebtoken) (cfg : env).

(** What is known when the gate lets a request through. *)
Lemma next_inv authHeader now st user :
  authenticateToken jwt cfg authHeader now st = Next user →
  ∃ token,
    bearer authHeader = Some token
    ∧ token ≠ EmptyString
    ∧ (token ∉ tokenBlacklist st)
    ∧ jwt_verify jwt token (JWT_SECRET cfg) now = VerifyOk user
    ∧ ∀ iat, pl_iat user = Some iat → now - iat * 1000 ≤ 86400000.
Proof.
  unfold authenticateToken.
  destruct (bearer authHeader) as [token|]; [|done].
  destruct (String.eqb_spec token "") as [|Hne]; [done|].
  destruct (JsSet.has token (tokenBlacklist st)) eqn:Hhas; [done|].
  destruct (jwt_verify jwt token (JWT_SECRET cfg) now) as [u|name] eqn:Hv;
    [|by destruct (String.eqb name "TokenExpiredError")].
  cbv zeta. destruct (Js.gt _ _) eqn:Hgt; [done|].
  intros [= ->]. exists token. split_and!; [done|done| |done|].
  - by apply has_false.
  - intros iat Hiat. rewrite Hiat in Hgt. simpl in Hgt.
    rewrite Z.gtb_ltb in Hgt. apply Z.ltb_ge in Hgt. lia.
Qed.

(** The gate hands a token the module issued, presented as
    [Bearer <token>] and not blacklisted, to [jwt.verify]. *)
Lemma gate_verifies_issued userId email issued now st :
  jwt_sound jwt →
  JsSet.has (accessToken (generateTokens jwt cfg userId email issued))
    (tokenBlacklist st) = false →
  authenticateToken jwt cfg
    (Some ("Bearer " +:+ accessToken (generateTokens jwt cfg userId email issued)))
    now st
  = match jwt_verify jwt (accessToken (generateTokens jwt cfg userId email issued))
            (JWT_SECRET cfg) now with
    | VerifyErr name =>
        if String.eqb name "TokenExpiredError" then Expired else Invalid
    | VerifyOk user =>
        if Js.gt ((λ iat, now - iat * 1000) <$> pl_iat user) 86400000
        then TooOld else Next user
    end.
Proof.
  intros Hsound Hfree.
  unfold authenticateToken, generateTokens in *. cbn [accessToken] in *.
  change ("Bearer " +:+ ?t) with ("Bearer" +:+ String " " t).
  rewrite bearer_token; [|done|apply (sign_lacks_space _ Hsound)].
  match goal with
  | |- context [jwt_sign jwt ?p ?k ?e] =>
      pose proof (sign_nonempty _ Hsound p k e) as Hne
  end.
  apply String.eqb_neq in Hne. by rewrite Hne, Hfree.
Qed.

(** What [jwt.verify] says of an issued access token, before and from its
    [exp] on. *)
Lemma verify_issued userId email issued now :
  jwt_sound jwt → jwt_expiring jwt →
  jwt_verify jwt (accessToken (generateTokens jwt cfg userId email issued))
    (JWT_SECRET cfg) now
  = if issued / 1000 + JWT_EXPIRES_IN cfg <=? now / 1000
    then VerifyErr "TokenExpiredError"
    else VerifyOk {| pl_id := userId; pl_email := email;
                     pl_iat := Some (issued / 1000);
                     pl_exp := Some (issued / 1000 + JWT_EXPIRES_IN cfg) |}.
Proof.
  intros Hsound Hexp. unfold generateTokens. cbn [accessToken].
  destruct (Z.leb_spec (issued / 1000 + JWT_EXPIRES_IN cfg) (now / 1000))
    as [Hle|Hlt].
  - by rewrite (Hexp _ _ _ now (issued / 1000)).
  - by rewrite (verify_sign _ Hsound _ _ _ now (issued / 1000)); [|done|done|lia].
Qed.

End GateFacts.

(** X1.  The gate lets a request through, attaching [user], exactly when the
    header carries a non-empty second part that is not blacklisted, that
    [jwt.verify] accepts with payload [user], and whose [iat], if any, is at
    most 24 hours old. *)
Theorem accepted_iff jwt cfg authHeader now st user :
  authenticateToken jwt cfg authHeader now st = Next user
  ↔ ∃ token,
      bearer authHeader = Some token
      ∧ token ≠ EmptyString
      ∧ (token ∉ tokenBlacklist st)
      ∧ jwt_verify jwt token (JWT_SECRET cfg) now = VerifyOk user
      ∧ ∀ iat, pl_iat user = Some iat → now - iat * 1000 ≤ 86400000.
Proof.
  split; [apply next_inv|].
  intros (token & Hb & Hne & Hfree & Hv & Hage).
  unfold authenticateToken. rewrite Hb.
  apply String.eqb_neq in Hne. apply has_false in Hfree.
  rewrite Hne, Hfree, Hv. cbv zeta.
  assert (Js.gt ((λ iat, now - iat * 1000) <$> pl_iat user)
            (24 * 60 * 60 * 1000) = false) as ->; [|done].
  destruct (pl_iat user) as [iat|]; [|done]. simpl.
  rewrite Z.gtb_ltb. apply Z.ltb_ge. specialize (Hage iat eq_refl). lia.
Qed.


(** X3.  More than 24 hours after its [iat], an issued access token is
    never accepted, whatever lifetime is configured: the answer is
    [Expired] or [TooOld]. *)
Theorem issued_token_dead_after_a_day jwt cfg userId email issued now st :
  jwt_sound jwt →
  jwt_expiring jwt →
  JsSet.has (accessToken (generateTokens jwt cfg userId email issued))
    (tokenBlacklist st) = false →
  86400000 < now - issued / 1000 * 1000 →
  authenticateToken jwt cfg
    (Some ("Bearer " +:+ accessToken (generateTokens jwt cfg userId email issued)))
    now st ∈ [Expired; TooOld].
Proof.
  intros Hsound Hexp Hfree Hage.
  rewrite gate_verifies_issued, verify_issued by done.
  destruct (_ <=? _); [left|]. cbn [pl_iat fmap option_fmap option_map Js.gt].
  assert ((now - issued / 1000 * 1000 >? 86400000) = true) as ->.
  { rewrite Z.gtb_ltb. by apply Z.ltb_lt. }
  right. left.
Qed.


(** X5.  The refresh token is no access token: when the two secrets differ,
    the gate answers [Invalid] to [Bearer <refreshToken>] at any time. *)
Theorem refresh_token_invalid jwt cfg userId email issued now st :
  jwt_sound jwt →
  jwt_keyed jwt →
  JWT_SECRET cfg ≠ JWT_REFRESH_SECRET cfg →
  JsSet.has (refreshToken (generateTokens jwt cfg userId email issued))
    (tokenBlacklist st) = false →
  authenticateToken jwt cfg
    (Some ("Bearer " +:+ refreshToken (generateTokens jwt cfg userId email issued)))
    now st = Invalid.
Proof.
  intros Hsound Hkeyed Hsecrets Hfree.
  set (p := {| pl_id := userId; pl_email := email;
               pl_iat := Some (issued / 1000); pl_exp := None |}).
  unfold authenticateToken, generateTokens in *. cbn [refreshToken] in *.
  fold p in Hfree |- *.
  change ("Bearer " +:+ ?t) with ("Bearer" +:+ String " " t).
  rewrite bearer_token; [|done|apply (sign_lacks_space _ Hsound)].
  pose proof (sign_nonempty _ Hsound p (JWT_REFRESH_SECRET cfg) 604800) as Hne.
  apply String.eqb_neq in Hne. rewrite Hne, Hfree.
  by rewrite Hkeyed.
Qed.

Module RefJwtLaws.
Import RefJwt.

Lemma expiring : jwt_expiring lib.
Proof.
  intros p secret expiresIn now i Hiat Hexp Hnow. simpl.
  unfold sign, verify, tag. change (Ascii.eqb "J" "J") with true. cbv iota.
  rewrite RefJwtFacts.get_body_put, String.eqb_refl. simpl.
  unfold expired, with_exp. simpl. rewrite Hiat. simpl.
  assert ((i + expiresIn <=? now / 1000) = true) as ->; [|done].
  by apply Z.leb_le.
Qed.

Lemma keyed : jwt_keyed lib.
Proof.
  intros p secret secret' expiresIn now Hne. simpl.
  unfold sign, verify, tag. change (Ascii.eqb "J" "J") with true. cbv iota.
  rewrite RefJwtFacts.get_body_put.
  apply String.eqb_neq in Hne. by rewrite Hne.
Qed.

End RefJwtLaws.


Lemma issued_token_dead_after_a_day_witness :
  jwt_sound RefJwt.lib
  ∧ jwt_expiring RefJwt.lib
  ∧ JsSet.has (Scenario.token_of 1) (tokenBlacklist initial) = false
  ∧ 86400000 < Scenario.t0 + 86401000 - Scenario.t0 / 1000 * 1000
  ∧ authenticateToken RefJwt.lib Scenario.cfg (Scenario.bearer_of 1)
      (Scenario.t0 + 86401000) initial ∈ [Expired; TooOld].
Proof.
  split_and!;
    [apply RefJwtFacts.sound | apply RefJwtLaws.expiring | reflexivity
    | reflexivity |].
  apply (issued_token_dead_after_a_day RefJwt.lib Scenario.cfg 1 "a@x.com"
           Scenario.t0 (Scenario.t0 + 86401000) initial
           RefJwtFacts.sound RefJwtLaws.expiring eq_refl eq_refl).
Defined.


Lemma refresh_token_invalid_witness :
  jwt_sound RefJwt.lib
  ∧ jwt_keyed RefJwt.lib
  ∧ JWT_SECRET Scenario.cfg ≠ JWT_REFRESH_SECRET Scenario.cfg
  ∧ JsSet.has
      (refreshToken (generateTokens RefJwt.lib Scenario.cfg 1 "a@x.com" Scenario.t0))
      (tokenBlacklist initial) = false
  ∧ authenticateToken RefJwt.lib Scenario.cfg
      (Some ("Bearer " +:+
             refreshToken (generateTokens RefJwt.lib Scenario.cfg 1 "a@x.com"
                             Scenario.t0)))
      Scenario.t0 initial = Invalid.
Proof.
  split_and!;
    [apply RefJwtFacts.sound | apply RefJwtLaws.keyed | discriminate
    | reflexivity |].
  apply (refresh_token_invalid RefJwt.lib Scenario.cfg 1 "a@x.com"
           Scenario.t0 Scenario.t0 initial
           RefJwtFacts.sound RefJwtLaws.keyed);
    [discriminate | reflexivity].
Defined.

(** ** The clean-up as a filter *)

Section SweepShape.

Context (jwt : jsonwebtoken).

Lemma sweep_loop_filter oneHourAgo visit bl :
  foldl (λ remaining oldToken, sweep_body jwt oneHourAgo oldToken remaining)
    bl visit
  = filter (λ t, ¬ (t ∈ visit ∧ swept jwt oneHourAgo t = true)) bl.
Proof.
  revert bl. induction visit as [|a visit IH]; intros bl; simpl.
  - symmetry. apply filter_keep_all. intros x _ [Hx _]. by apply elem_of_nil in Hx.
  - rewrite IH, sweep_body_swept. destruct (swept jwt oneHourAgo a) eqn:Ha.
    + unfold JsSet.delete. rewrite list_filter_filter.
      apply list_filter_iff. intros x. rewrite elem_of_cons. split.
      * intros [Hn Hne] [[->|Hv] Hs]; [done|]. by apply Hn.
      * intros Hn. split; [intros [Hv Hs]; apply Hn; by split; [right|]|].
        intros ->. apply Hn. by split; [left|].
    + apply list_filter_iff. intros x. rewrite elem_of_cons. split.
      * intros Hn [[->|Hv] Hs]; [congruence|]. by apply Hn.
      * intros Hn [Hv Hs]. apply Hn. by split; [right|].
Qed.

Lemma sweep_filter now bl :
  sweep jwt now bl = filter (λ t, swept jwt (now - 3600000) t = false) bl.
Proof.
  unfold sweep. cbv zeta. change (now - 60 * 60 * 1000) with (now - 3600000).
  rewrite sweep_loop_filter. apply filter_ext_elem. intros x Hx.
  destruct (swept jwt (now - 3600000) x); split; try done.
  - intros Hn. exfalso. by apply Hn.
  - by intros _ [_ ?].
Qed.

Lemma swept_mono th th' token :
  th ≤ th' → swept jwt th token = true → swept jwt th' token = true.
Proof.
  unfold swept. destruct (jwt_decode jwt token) as [| |[iat|]]; try done.
  simpl. rewrite !Z.ltb_lt. lia.
Qed.

End SweepShape.

(** X6.  One clean-up pass is a filter: it keeps, in their order, exactly
    the members whose decoding does not throw and whose [iat], if there is
    one, is not more than an hour old; in particular it adds nothing. *)
Theorem sweep_is_filter jwt now bl :
  sweep jwt now bl = filter (λ t, swept jwt (now - 3600000) t = false) bl
  ∧ sweep jwt now bl ⊆ bl
  ∧ (length (sweep jwt now bl) ≤ length bl)%nat.
Proof.
  rewrite sweep_filter. split_and!; [done| |apply length_filter].
  intros x Hx. by apply list_elem_of_filter in Hx as [_ ?].
Qed.

(** X7.  Clean-ups compose: a clean-up after an earlier one leaves what it
    would have left alone, so running the queued callbacks more than once,
    or late, changes nothing beyond the last run. *)
Theorem sweep_after_sweep jwt now now' bl :
  now ≤ now' →
  sweep jwt now' (sweep jwt now bl) = sweep jwt now' bl
  ∧ sweep jwt now (sweep jwt now bl) = sweep jwt now bl.
Proof.
  intros Hle. rewrite !sweep_filter. split.
  - apply list_filter_filter_l. intros x Hx.
    destruct (swept jwt (now - 3600000) x) eqn:Hs; [|done].
    rewrite (swept_mono jwt (now - 3600000) (now' - 3600000) x) in Hx; [done|lia|done].
  - by apply list_filter_filter_l.
Qed.

Lemma sweep_after_sweep_witness :
  let bl := tokenBlacklist (revokeToken "not-a-jwt" Scenario.ninety_nine) in
  Scenario.t0 + Scenario.hour ≤ Scenario.t0 + 2 * Scenario.hour
  ∧ sweep RefJwt.lib (Scenario.t0 + 2 * Scenario.hour)
      (sweep RefJwt.lib (Scenario.t0 + Scenario.hour) bl)
    = sweep RefJwt.lib (Scenario.t0 + 2 * Scenario.hour) bl
  ∧ sweep RefJwt.lib (Scenario.t0 + 2 * Scenario.hour) bl = ["not-a-jwt"]
  ∧ length (sweep RefJwt.lib (Scenario.t0 + Scenario.hour) bl) = 100%nat.
Proof.
  cbv zeta.
  assert (Scenario.t0 + Scenario.hour ≤ Scenario.t0 + 2 * Scenario.hour) as Hle
    by (vm_compute; discriminate).
  split_and!; [exact Hle | | vm_compute; reflexivity | vm_compute; reflexivity].
  exact (proj1 (sweep_after_sweep RefJwt.lib (Scenario.t0 + Scenario.hour)
                  (Scenario.t0 + 2 * Scenario.hour)
                  (tokenBlacklist (revokeToken "not-a-jwt" Scenario.ninety_nine))
                  Hle)).
Defined.

(** ** Revocation over whole runs *)

Section RunMore.

Context (jwt : jsonwebtoken) (cfg : env).

Lemma add_length token bl :
  (1 ≤ length (JsSet.add token bl) ≤ S (length bl))%nat.
Proof.
  unfold JsSet.add. destruct (JsSet.has token bl) eqn:Hhas.
  - destruct bl; [done|]. simpl. lia.
  - rewrite length_app. simpl. lia.
Qed.

(** While fewer than a hundred tokens have been revoked no clean-up is
    queued and nothing leaves the blacklist. *)
Lemma run_below_hundred turns st :
  timers st = 0%nat →
  (length (tokenBlacklist st) + revocations turns < 100)%nat →
  timers (run jwt cfg turns st) = 0%nat
  ∧ tokenBlacklist st ⊆ tokenBlacklist (run jwt cfg turns st)
  ∧ ∀ now token, (now, Revoke token) ∈ turns →
      token ∈ tokenBlacklist (run jwt cfg turns st).
Proof.
  revert st. induction turns as [|[t c] turns IH]; intros st Htimers Hlen.
  - split_and!; [done|done|]. intros now token Hin. by apply elem_of_nil in Hin.
  - change (run jwt cfg ((t, c) :: turns) st)
      with (run jwt cfg turns (step jwt cfg t c st).2).
    destruct c as [h|u e|token|]; cbn [revocations] in Hlen.
    + destruct (IH st Htimers Hlen) as (H1 & H2 & H3).
      split_and!; [done|done|]. intros now token Hin.
      apply elem_of_cons in Hin as [[=]|Hin]. by eapply H3.
    + destruct (IH st Htimers Hlen) as (H1 & H2 & H3).
      split_and!; [done|done|]. intros now token Hin.
      apply elem_of_cons in Hin as [[=]|Hin]. by eapply H3.
    + pose proof (add_length token (tokenBlacklist st)) as Hadd.
      assert (timers (revokeToken token st) = 0%nat) as Htimers'.
      { unfold revokeToken. cbn [timers]. unfold JsSet.size.
        rewrite Nat.mod_small by lia.
        destruct (length (JsSet.add token (tokenBlacklist st))); [lia|done]. }
      destruct (IH (revokeToken token st) Htimers') as (H1 & H2 & H3).
      { cbn [revokeToken tokenBlacklist]. lia. }
      cbn [step snd]. split_and!; [done| |].
      * intros x Hx. apply H2. cbn [revokeToken tokenBlacklist].
        apply elem_of_add. by right.
      * intros now token' Hin. apply elem_of_cons in Hin as [[= -> ->]|Hin].
        -- apply H2, revoke_listed.
        -- by eapply H3.
    + cbn [step]. rewrite Htimers. cbn [snd].
      destruct (IH st Htimers Hlen) as (H1 & H2 & H3).
      split_and!; [done|done|]. intros now token Hin.
      apply elem_of_cons in Hin as [[=]|Hin]. by eapply H3.
Qed.


End RunMore.

(** X8.  Below a hundred revocations, revocation is permanent: in a run of
    the module from start-up with fewer than 100 [revokeToken] calls, no
    clean-up is ever queued, and a request presenting any token revoked in
    the run is answered [Revoked] at any later time. *)
Theorem few_revocations_permanent jwt cfg turns revoked_at token authHeader now :
  (revocations turns < 100)%nat →
  (revoked_at, Revoke token) ∈ turns →
  bearer authHeader = Some token →
  token ≠ EmptyString →
  timers (run jwt cfg turns initial) = 0%nat
  ∧ authenticateToken jwt cfg authHeader now (run jwt cfg turns initial) = Revoked.
Proof.
  intros Hfew Hin Hb Hne.
  destruct (run_below_hundred jwt cfg turns initial eq_refl Hfew) as (H1 & _ & H3).
  split; [done|]. apply authenticate_listed with token; [done..|].
  by eapply H3.
Qed.

Lemma few_revocations_permanent_witness :
  let turns := Scenario.logouts Scenario.t0 99
               ++ [(Scenario.t0 + 30 * Scenario.hour, Timer)] in
  (revocations turns < 100)%nat
  ∧ (Scenario.t0, Revoke (Scenario.token_of 1)) ∈ turns
  ∧ bearer (Scenario.bearer_of 1) = Some (Scenario.token_of 1)
  ∧ Scenario.token_of 1 ≠ EmptyString
  ∧ timers (run RefJwt.lib Scenario.cfg turns initial) = 0%nat
  ∧ authenticateToken RefJwt.lib Scenario.cfg (Scenario.bearer_of 1)
      (Scenario.t0 + 31 * Scenario.hour)
      (run RefJwt.lib Scenario.cfg turns initial) = Revoked.
Proof.
  cbv zeta.
  assert ((revocations (Scenario.logouts Scenario.t0 99
                        ++ [((Scenario.t0 + 30 * Scenario.hour)%Z, Timer)]) < 100)%nat)
    as Hfew by (vm_compute; lia).
  assert ((Scenario.t0, Revoke (Scenario.token_of 1))
          ∈ Scenario.logouts Scenario.t0 99
            ++ [(Scenario.t0 + 30 * Scenario.hour, Timer)]) as Hin
    by (apply elem_of_app; left; left).
  assert (bearer (Scenario.bearer_of 1) = Some (Scenario.token_of 1)) as Hb
    by (vm_compute; reflexivity).
  assert (Scenario.token_of 1 ≠ EmptyString) as Hne by discriminate.
  split_and!; [exact Hfew | exact Hin | exact Hb | exact Hne | |];
    apply (few_revocations_permanent RefJwt.lib Scenario.cfg _ Scenario.t0
             (Scenario.token_of 1) (Scenario.bearer_of 1)
             (Scenario.t0 + 31 * Scenario.hour) Hfew Hin Hb Hne).
Defined.



(** ** The logout route *)

Section LogoutFacts.

Context (jwt : jsonwebtoken) (cfg : env).

(** Every part [split] returns is free of the separator. *)
Lemma split_parts_lack sep s w :
  w ∈ Js.split sep s → Js.lacks sep w = true.
Proof.
  revert w. induction s as [|c s IH]; intros w; simpl.
  - intros Hw. apply list_elem_of_singleton in Hw. by subst.
  - destruct (Ascii.eqb c sep) eqn:Hc.
    + intros Hw. apply elem_of_cons in Hw as [->|Hw]; [done|by apply IH].
    + destruct (Js.split sep s) as [|w0 ws]; intros Hw.
      * apply list_elem_of_singleton in Hw. subst. simpl. by rewrite Hc.
      * apply elem_of_cons in Hw as [->|Hw].
        -- simpl. rewrite Hc. simpl. apply IH. left.
        -- apply IH. by right.
Qed.

(** The handler reads the token the middleware checked. *)
Lemma logout_token_bearer authHeader token :
  bearer authHeader = Some token → token ≠ EmptyString →
  logout_token authHeader = Some token.
Proof.
  destruct authHeader as [h|]; [|done]. unfold bearer, logout_token. simpl.
  destruct (String.eqb_spec h "") as [->|_]; [|done]. by intros [= <-].
Qed.

Lemma bearer_lacks_space authHeader token :
  bearer authHeader = Some token → Js.lacks " " token = true.
Proof.
  destruct authHeader as [h|]; [|done]. unfold bearer.
  destruct (String.eqb_spec h "") as [->|_]; [by intros [= <-]|].
  intros Hl. apply (split_parts_lack " " h). by eapply list_elem_of_lookup_2.
Qed.

(** A logout that is let through revokes the presented token. *)
Lemma logout_accepted authHeader now st user :
  authenticateToken jwt cfg authHeader now st = Next user →
  ∃ token,
    bearer authHeader = Some token ∧ token ≠ EmptyString
    ∧ jwt_verify jwt token (JWT_SECRET cfg) now = VerifyOk user
    ∧ logout jwt cfg authHeader now st
      = (Message "Logged out successfully", revokeToken token st).
Proof.
  intros Hnext. pose proof Hnext as Hinv.
  apply next_inv in Hinv as (token & Hb & Hne & _ & Hv & _).
  exists token. split_and!; [done..|].
  unfold logout. rewrite Hnext, (logout_token_bearer _ _ Hb Hne).
  apply String.eqb_neq in Hne. by rewrite Hne.
Qed.

Lemma logout_rejected authHeader now st status error :
  authenticateToken jwt cfg authHeader now st = Respond status error →
  logout jwt cfg authHeader now st = (Rejected status error, st).
Proof. intros H. unfold logout. by rewrite H. Qed.

End LogoutFacts.



(** X11.  Through the routes, only verified tokens are blacklisted: in any
    sequence of logout requests and clean-ups from start-up, every member
    of the blacklist is a non-empty string free of spaces that [jwt.verify]
    accepted, under the access secret, at the time of a logout. *)
Theorem blacklist_holds_verified_tokens jwt cfg events token :
  token ∈ tokenBlacklist (serve_all jwt cfg events initial) →
  token ≠ EmptyString
  ∧ Js.lacks " " token = true
  ∧ ∃ at_time user,
      jwt_verify jwt token (JWT_SECRET cfg) at_time = VerifyOk user.
Proof.
  set (ok := λ t : string,
         t ≠ EmptyString ∧ Js.lacks " " t = true
         ∧ ∃ at_time user,
             jwt_verify jwt t (JWT_SECRET cfg) at_time = VerifyOk user).
  assert (∀ st, (∀ t, t ∈ tokenBlacklist st → ok t) →
            ∀ t, t ∈ tokenBlacklist (serve_all jwt cfg events st) → ok t) as Hinv.
  { induction events as [|[now e] events IH]; intros st Hst; [done|].
    simpl. apply IH. destruct e as [authHeader|]; simpl.
    - destruct (authenticateToken jwt cfg authHeader now st) as [user|status error]
        eqn:Hauth; [|by rewrite (logout_rejected _ _ _ _ _ _ _ Hauth)].
      destruct (logout_accepted _ _ _ _ _ _ Hauth) as (tk & Hb & Hne & Hv & ->).
      cbn [snd revokeToken tokenBlacklist]. intros t Ht.
      apply elem_of_add in Ht as [->|Ht]; [|by apply Hst].
      split_and!; [done|by eapply bearer_lacks_space|by exists now, user].
    - destruct (timers st); [done|]. cbn [snd tokenBlacklist]. intros t Ht.
      apply elem_of_sweep in Ht as [Ht _]. by apply Hst. }
  apply Hinv. intros t Ht. by apply elem_of_nil in Ht.
Qed.

Lemma blacklist_holds_verified_tokens_witness :
  let events := [(Scenario.t0, Logout (Scenario.bearer_of 1));
                 (Scenario.t0, Logout (Some "Bearer not-a-jwt"));
                 (Scenario.t0 + 1, Cleanup)] in
  Scenario.token_of 1
  ∈ tokenBlacklist (serve_all RefJwt.lib Scenario.cfg events initial)
  ∧ tokenBlacklist (serve_all RefJwt.lib Scenario.cfg events initial)
    = [Scenario.token_of 1]
  ∧ Js.lacks " " (Scenario.token_of 1) = true
  ∧ ∃ at_time user,
      jwt_verify RefJwt.lib (Scenario.token_of 1) (JWT_SECRET Scenario.cfg) at_time
      = VerifyOk user.
Proof.
  cbv zeta.
  assert (tokenBlacklist
            (serve_all RefJwt.lib Scenario.cfg
               [(Scenario.t0, Logout (Scenario.bearer_of 1));
                (Scenario.t0, Logout (Some "Bearer not-a-jwt"));
                (Scenario.t0 + 1, Cleanup)] initial)
          = [Scenario.token_of 1]) as Hbl by (vm_compute; reflexivity).
  assert (Scenario.token_of 1
          ∈ tokenBlacklist
              (serve_all RefJwt.lib Scenario.cfg
                 [(Scenario.t0, Logout (Scenario.bearer_of 1));
                  (Scenario.t0, Logout (Some "Bearer not-a-jwt"));
                  (Scenario.t0 + 1, Cleanup)] initial)) as Hin
    by (rewrite Hbl; left).
  split_and!; [exact Hin | exact Hbl | |];
    apply (blacklist_holds_verified_tokens RefJwt.lib Scenario.cfg _ _ Hin).
Defined.

(** * Properties of the request sanitizers ([middleware/security.js]) *)

Section ValueFacts.

Context {number : Type}.
Implicit Types (v obj : value number) (s key : list N).

(** Induction over a value, its items, its properties and its prototype. *)
Lemma value_induction (P : value number → Prop) :
  P VNull →
  (∀ b, P (VBool b)) →
  (∀ n, P (VNum n)) →
  (∀ s, P (VStr s)) →
  (∀ items, Forall P items → P (VArr items)) →
  (∀ proto props,
     (∀ p, proto = Some p → P p) →
     Forall (λ entry, P entry.2) props →
     P (VObj proto props)) →
  ∀ v, P v.
Proof.
  intros Hnull Hbool Hnum Hstr Harr Hobj.
  fix IH 1. intros [| b | n | s | items | proto props].
  - exact Hnull.
  - apply Hbool.
  - apply Hnum.
  - apply Hstr.
  - apply Harr. induction items as [|item items IHitems]; constructor.
    + apply IH.
    + exact IHitems.
  - apply Hobj.
    + destruct proto as [p|].
      * pose proof (IH p) as Hp. intros q Hq. injection Hq as <-. exact Hp.
      * intros q Hq. discriminate Hq.
    + induction props as [|[k item] props IHprops]; constructor.
      * apply IH.
      * exact IHprops.
Qed.

Lemma units_inj a b : units a = units b → a = b.
Proof.
  unfold units. intros H.
  assert (Inj (=) (=) N_of_ascii) as Hinj.
  { intros x y Hxy. rewrite <- (ascii_N_embedding x), <- (ascii_N_embedding y).
    by rewrite Hxy. }
  apply (inj (fmap N_of_ascii)) in H.
  rewrite <- (String.string_of_list_ascii_of_string a),
          <- (String.string_of_list_ascii_of_string b).
  by rewrite H.
Qed.

Lemma to_uint_not_nil i : Nat.to_uint i ≠ Decimal.Nil.
Proof.
  intros H. pose proof (DecimalNat.Unsigned.to_of (Nat.to_uint i)) as Hn.
  rewrite DecimalNat.Unsigned.of_to, H in Hn. discriminate Hn.
Qed.

Lemma index_key_inj i j : index_key i = index_key j → i = j.
Proof.
  unfold index_key. intros H. apply units_inj in H.
  apply (f_equal NilZero.uint_of_string) in H.
  rewrite !NilZero.usu in H by apply to_uint_not_nil.
  injection H as H. by apply DecimalNat.Unsigned.to_uint_inj.
Qed.

Lemma index_key_not_proto i : index_key i ≠ units "__proto__".
Proof.
  unfold index_key. intros H. apply units_inj in H.
  apply (f_equal NilZero.uint_of_string) in H.
  rewrite NilZero.usu in H by apply to_uint_not_nil. discriminate H.
Qed.

(** [set_prop] on a new key appends. *)
Lemma set_prop_new key v (props : list (list N * value number)) :
  key ∉ props.*1 → set_prop key v props = props ++ [(key, v)].
Proof.
  induction props as [|[k old] props IH]; simpl; intros Hnew; [done|].
  apply not_elem_of_cons in Hnew as [Hne Hnew].
  destruct (decide (k = key)); [congruence|]. by rewrite IH.
Qed.

Lemma strings_all_set_prop ok key v (props : list (list N * value number)) :
  strings_all ok v = true →
  forallb (λ entry, strings_all ok entry.2) props = true →
  forallb (λ entry, strings_all ok entry.2) (set_prop key v props) = true.
Proof.
  intros Hv. induction props as [|[k old] props IH]; simpl.
  - intros _. by rewrite Hv.
  - intros Hall. apply andb_true_iff in Hall as [Hold Hall].
    destruct (decide (k = key)); simpl.
    + by rewrite Hv, Hall.
    + by rewrite Hold, IH.
Qed.

Lemma strings_all_obj ok (proto : option (value number)) props :
  strings_all ok (VObj proto props)
  = match proto with Some p => strings_all ok p | None => true end
    && forallb (λ entry, strings_all ok entry.2) props.
Proof. done. Qed.

Lemma strings_all_assign ok key v obj :
  strings_all ok v = true → strings_all ok obj = true →
  strings_all ok (assign key v obj) = true.
Proof.
  intros Hv Hobj. destruct obj as [| | | | |proto props]; try done.
  unfold assign. pose proof Hobj as Hobj'.
  rewrite strings_all_obj in Hobj'.
  apply andb_true_iff in Hobj' as [Hproto Hprops].
  destruct (decide (key = units "__proto__")).
  - destruct v; try done; by rewrite strings_all_obj, ?Hv, Hprops.
  - by rewrite strings_all_obj, Hproto, strings_all_set_prop.
Qed.

End ValueFacts.

Section SanitizeFacts.

Context {number : Type} (replace_script : list N → list N).
Implicit Types (v obj : value number) (s key : list N).

#[local] Abbreviation sanitize_field :=
  (sanitize_field (number:=number) replace_script).
#[local] Abbreviation sanitizeObject :=
  (sanitizeObject (number:=number) replace_script).
#[local] Abbreviation sanitizeInput :=
  (sanitizeInput (number:=number) replace_script).

(** Both loops, as folds over the entries they visit. *)
Lemma sanitizeObject_obj proto props :
  sanitizeObject (VObj proto props)
  = foldl (λ sanitized entry, assign entry.1 (sanitize_field entry.2) sanitized)
      (VObj None []) props.
Proof.
  simpl. generalize (@VObj number None []).
  induction props as [|[key v] props IH]; intros acc; [done|].
  simpl. by rewrite <- IH.
Qed.

Lemma sanitizeObject_arr items :
  sanitizeObject (VArr items)
  = foldl (λ sanitized entry, assign entry.1 (sanitize_field entry.2) sanitized)
      (VObj None []) (imap (λ i v, (index_key i, v)) items).
Proof.
  simpl. generalize (@VObj number None []).
  change (λ i v, (index_key i, v))
    with ((λ i (v : value number), (index_key i, v)) ∘ Nat.add 0%nat).
  generalize 0%nat.
  induction items as [|v items IH]; intros i acc; [done|].
  simpl. rewrite Nat.add_0_r. rewrite IH. f_equal.
  apply imap_ext. intros j x _. simpl. do 2 f_equal. lia.
Qed.

Lemma tame_sanitized s :
  tame (take max_length
          (filter (λ c, c ≠ 60%N ∧ c ≠ 62%N) (replace_script (trim s)))) = true.
Proof.
  unfold tame. apply andb_true_iff. split.
  - apply forallb_forall. intros c Hc. apply list_elem_of_In in Hc.
    apply subseteq_take, list_elem_of_filter in Hc as [[H60 H62] _].
    apply andb_true_iff. split; apply negb_true_iff, N.eqb_neq; done.
  - apply Nat.leb_le. rewrite length_take. lia.
Qed.

Lemma sanitize_loop_tame entries acc :
  Forall (λ entry, strings_all tame (sanitize_field entry.2) = true) entries →
  strings_all tame acc = true →
  strings_all tame
    (foldl (λ sanitized entry, assign entry.1 (sanitize_field entry.2) sanitized)
       acc entries) = true.
Proof.
  intros Hall. revert acc. induction Hall as [|entry entries Hentry _ IH];
    intros acc Hacc; [done|].
  simpl. apply IH. by apply strings_all_assign.
Qed.

(** Whatever a loop stores is tame. *)
Lemma sanitize_field_tame v : strings_all tame (sanitize_field v) = true.
Proof.
  induction v as [| b | n | s | items IH | proto props _ IH]
    using value_induction; try done.
  - apply tame_sanitized.
  - change (sanitize_field (VArr items)) with (sanitizeObject (VArr items)).
    rewrite sanitizeObject_arr. apply sanitize_loop_tame; [|done].
    apply Forall_forall. intros [k v] Hin.
    apply elem_of_lookup_imap in Hin as (i & x & [= -> ->] & Hx).
    simpl. eapply Forall_forall in IH; [exact IH|].
    by eapply list_elem_of_lookup_2.
  - change (sanitize_field (VObj proto props))
      with (sanitizeObject (VObj proto props)).
    rewrite sanitizeObject_obj. by apply sanitize_loop_tame.
Qed.

End SanitizeFacts.

(** X12.  [sanitizeInput] returns a string without [<] or [>] and of at
    most 10000 code units for every string, whatever the script pattern
    removed before; anything that is not a string is returned as it is. *)
Theorem sanitizeInput_tame {number : Type} replace_script (input : value number) :
  match input with
  | VStr s =>
      ∃ s', sanitizeInput replace_script input = VStr s'
            ∧ (60%N ∉ s') ∧ (62%N ∉ s') ∧ Z.of_nat (length s') ≤ 10000
  | _ => sanitizeInput replace_script input = input
  end.
Proof.
  destruct input as [| | |s| |]; try done.
  eexists. split; [reflexivity|].
  pose proof (tame_sanitized replace_script s) as Htame.
  unfold tame in Htame. apply andb_true_iff in Htame as [Hall Hlen].
  rewrite forallb_forall in Hall. apply Nat.leb_le in Hlen.
  split_and!.
  - intros Hin. apply list_elem_of_In, Hall in Hin. done.
  - intros Hin. apply list_elem_of_In, Hall in Hin.
    apply andb_true_iff in Hin as [_ Hin]. done.
  - unfold max_length in *. lia.
Qed.

(** X13.  [sanitizeObject] cleans in depth: for an object or an array,
    every string of the result, at any depth and along prototypes, has no
    angle bracket and at most 10000 code units.  A string, a number, a
    boolean or [null] passed at top level is returned untouched. *)
Theorem sanitizeObject_deep {number : Type} replace_script (obj : value number) :
  match obj with
  | VObj _ _ | VArr _ => strings_all tame (sanitizeObject replace_script obj) = true
  | _ => sanitizeObject replace_script obj = obj
  end.
Proof.
  destruct obj as [| | | |items|proto props]; try done.
  - apply (sanitize_field_tame replace_script (VArr items)).
  - apply (sanitize_field_tame replace_script (VObj proto props)).
Qed.

Section SanitizeShape.

Context {number : Type} (replace_script : list N → list N).
Implicit Types (v obj : value number) (s key : list N).

#[local] Abbreviation san :=
  (λ entry : list N * value number,
     (entry.1, sanitize_field replace_script entry.2)).

(** A run of either loop over entries none of which is [__proto__] and whose
    keys are new and distinct appends the sanitized entries in order. *)
Lemma sanitize_loop_shape entries proto (acc : list (list N * value number)) :
  NoDup (acc.*1 ++ entries.*1) →
  units "__proto__" ∉ entries.*1 →
  foldl (λ sanitized entry,
           assign entry.1 (sanitize_field replace_script entry.2) sanitized)
    (VObj proto acc) entries
  = VObj proto (acc ++ (san <$> entries)).
Proof.
  revert acc. induction entries as [|[k v] entries IH]; intros acc Hdup Hproto.
  - simpl. by rewrite app_nil_r.
  - rewrite fmap_cons in Hdup, Hproto. simpl in Hdup, Hproto.
    apply not_elem_of_cons in Hproto as [Hk Hproto].
    cbn [foldl fst snd]. unfold assign at 2.
    destruct (decide (k = units "__proto__")) as [->|_]; [done|].
    rewrite set_prop_new.
    + rewrite IH; [by rewrite <- app_assoc| |done].
      rewrite fmap_app, <- app_assoc. done.
    + apply NoDup_app in Hdup as (_ & Hdisj & _). intros Hin.
      apply (Hdisj k Hin). left.
Qed.

(** Either loop ends on an object. *)
Lemma sanitize_loop_obj entries proto (acc : list (list N * value number)) :
  ∃ proto' props',
    foldl (λ sanitized entry,
             assign entry.1 (sanitize_field replace_script entry.2) sanitized)
      (VObj proto acc) entries
    = VObj proto' props'.
Proof.
  revert proto acc. induction entries as [|[k v] entries IH]; intros proto acc.
  - by exists proto, acc.
  - cbn [foldl fst snd]. unfold assign at 2.
    destruct (decide (k = units "__proto__")); [|apply IH].
    destruct (sanitize_field replace_script v); apply IH.
Qed.

Lemma sanitize_field_object v :
  match v with
  | VArr _ | VObj _ _ =>
      ∃ proto' props',
        sanitize_field replace_script v = VObj proto' props'
        ∧ sanitizeObject replace_script v = VObj proto' props'
  | _ => True
  end.
Proof.
  destruct v as [| | | |items|proto props]; try done.
  - change (sanitize_field replace_script (VArr items))
      with (sanitizeObject replace_script (VArr items)).
    rewrite sanitizeObject_arr.
    destruct (sanitize_loop_obj (imap (λ i v, (index_key i, v)) items) None [])
      as (p' & props' & ->). by exists p', props'.
  - change (sanitize_field replace_script (VObj proto props))
      with (sanitizeObject replace_script (VObj proto props)).
    rewrite sanitizeObject_obj.
    destruct (sanitize_loop_obj props None []) as (p' & props' & ->).
    by exists p', props'.
Qed.

End SanitizeShape.

(** X14.  On an object whose keys are distinct and none of which is
    [__proto__], [sanitizeObject] keeps the keys and their order, gives the
    result the default prototype, and stores for each key the sanitized
    value: a cleaned string, a sanitized copy of an object or array, or the
    number or boolean itself. *)
Theorem sanitizeObject_shape {number : Type} replace_script proto
    (props : list (list N * value number)) :
  NoDup props.*1 →
  units "__proto__" ∉ props.*1 →
  sanitizeObject replace_script (VObj proto props)
  = VObj None
      ((λ entry, (entry.1, sanitize_field replace_script entry.2)) <$> props).
Proof.
  intros Hdup Hproto.
  rewrite sanitizeObject_obj, sanitize_loop_shape; done.
Qed.

Lemma sanitizeObject_shape_witness :
  let body : value Z :=
    VObj None [(units "email", VStr (units " a<b>@x.com "));
               (units "age", VNum 7);
               (units "tags", VObj None [(units "x", VStr (units "<i>"))])] in
  NoDup [units "email"; units "age"; units "tags"]
  ∧ (units "__proto__" ∉ [units "email"; units "age"; units "tags"])
  ∧ sanitizeObject (λ s, s) body
    = VObj None [(units "email", VStr (units "ab@x.com"));
                 (units "age", VNum 7);
                 (units "tags", VObj None [(units "x", VStr (units "i"))])].
Proof.
  cbv zeta.
  assert (NoDup [units "email"; units "age"; units "tags"]) as Hdup.
  { apply (bool_decide_unpack _). vm_compute. exact I. }
  assert (units "__proto__" ∉ [units "email"; units "age"; units "tags"])
    as Hproto.
  { apply (bool_decide_unpack _). vm_compute. exact I. }
  split_and!; [exact Hdup | exact Hproto |].
  rewrite (sanitizeObject_shape (λ s, s) None
             [(units "email", VStr (units " a<b>@x.com "));
              (units "age", VNum 7%Z);
              (units "tags", VObj None [(units "x", VStr (units "<i>"))])]
             Hdup Hproto).
  vm_compute. reflexivity.
Defined.

(** X15.  A [__proto__] property of the body never becomes a property of
    the result.  When its value is an object, an array or [null], the
    sanitized value becomes the prototype of the result, so that its
    properties are read through the result as inherited ones; when it is a
    string, a number or a boolean it is dropped.  The other keys are kept
    as in X14. *)
Theorem sanitizeObject_proto {number : Type} replace_script proto
    (before after : list (list N * value number)) (v : value number) :
  NoDup (before ++ (units "__proto__", v) :: after).*1 →
  sanitizeObject replace_script
    (VObj proto (before ++ (units "__proto__", v) :: after))
  = VObj
      match v with
      | VNull | VArr _ | VObj _ _ => Some (sanitizeObject replace_script v)
      | _ => None
      end
      ((λ entry, (entry.1, sanitize_field replace_script entry.2))
         <$> before ++ after).
Proof.
  intros Hdup. rewrite fmap_app, fmap_cons in Hdup. simpl in Hdup.
  apply NoDup_app in Hdup as (Hbefore & Hdisj & Hrest).
  apply NoDup_cons in Hrest as [Hafter_proto Hafter].
  assert (units "__proto__" ∉ before.*1) as Hbefore_proto.
  { intros Hin. apply (Hdisj _ Hin). left. }
  rewrite sanitizeObject_obj, foldl_app.
  rewrite sanitize_loop_shape; [|by rewrite app_nil_l|done].
  cbn [foldl fst snd app]. unfold assign at 2.
  rewrite decide_True by done.
  assert (NoDup (((λ entry : list N * value number,
                     (entry.1, sanitize_field replace_script entry.2))
                  <$> before).*1 ++ after.*1)) as Hdup'.
  { rewrite <- list_fmap_compose.
    apply NoDup_app. split_and!; [done| |done].
    intros k Hk Hk'. apply (Hdisj k Hk). by right. }
  rewrite fmap_app.
  pose proof (sanitize_field_object replace_script v) as Hobj.
  destruct v as [| b | n | s | items | p props].
  - change (sanitize_field replace_script VNull) with (@VNull number).
    cbv iota. by rewrite sanitize_loop_shape.
  - change (sanitize_field replace_script (VBool b)) with (@VBool number b).
    cbv iota. by rewrite sanitize_loop_shape.
  - change (sanitize_field replace_script (VNum n)) with (VNum n).
    cbv iota. by rewrite sanitize_loop_shape.
  - change (sanitize_field replace_script (VStr s))
      with (sanitizeInput (number:=number) replace_script (VStr s)).
    unfold sanitizeInput. cbv iota. by rewrite sanitize_loop_shape.
  - destruct Hobj as (p' & props' & Hfield & Hsan). rewrite Hfield, Hsan.
    cbv iota. by rewrite sanitize_loop_shape.
  - destruct Hobj as (p' & props' & Hfield & Hsan). rewrite Hfield, Hsan.
    cbv iota. by rewrite sanitize_loop_shape.
Qed.

Lemma sanitizeObject_proto_witness :
  let body : value Z :=
    VObj None [(units "email", VStr (units "a@x.com"));
               (units "__proto__",
                VObj None [(units "password", VStr (units "<pw>"))])] in
  NoDup [units "email"; units "__proto__"]
  ∧ sanitizeObject (λ s, s) body
    = VObj (Some (VObj None [(units "password", VStr (units "pw"))]))
        [(units "email", VStr (units "a@x.com"))].
Proof.
  cbv zeta.
  assert (NoDup ([(units "email", VStr (number:=Z) (units "a@x.com"))]
                 ++ (units "__proto__",
                     VObj None [(units "password", VStr (units "<pw>"))])
                    :: []).*1) as Hdup.
  { apply (bool_decide_unpack _). vm_compute. exact I. }
  split; [exact Hdup|].
  pose proof (sanitizeObject_proto (λ s, s) None
                [(units "email", VStr (units "a@x.com"))] []
                (VObj None [(units "password", VStr (units "<pw>"))]) Hdup) as H.
  cbn [app] in H. rewrite H. vm_compute. reflexivity.
Defined.

Section ArrayShape.

Context {number : Type} (replace_script : list N → list N).

Lemma imap_keys (f : nat → list N) (items : list (value number)) :
  (imap (λ i v, (f i, v)) items).*1 = f <$> seq 0 (length items).
Proof.
  apply list_eq. intros i.
  rewrite !list_lookup_fmap, list_lookup_imap.
  destruct (items !! i) as [v|] eqn:Hi; simpl.
  - rewrite lookup_seq_lt by (by eapply lookup_lt_Some). done.
  - rewrite lookup_seq_ge by (by apply lookup_ge_None). done.
Qed.

Lemma imap_san (items : list (value number)) :
  (λ entry : list N * value number,
     (entry.1, sanitize_field replace_script entry.2))
    <$> imap (λ i v, (index_key i, v)) items
  = imap (λ i v, (index_key i, sanitize_field replace_script v)) items.
Proof.
  apply list_eq. intros i.
  rewrite list_lookup_fmap, !list_lookup_imap. by destruct (items !! i).
Qed.

End ArrayShape.

(** X16.  An array does not stay an array: [sanitizeObject] returns a plain
    object whose keys are the indices ["0"], ["1"], ... in order, each with
    the sanitized item. *)
Theorem sanitizeObject_array {number : Type} replace_script
    (items : list (value number)) :
  sanitizeObject replace_script (VArr items)
  = VObj None
      (imap (λ i v, (index_key i, sanitize_field replace_script v)) items).
Proof.
  rewrite sanitizeObject_arr, sanitize_loop_shape.
  - by rewrite app_nil_l, imap_san.
  - rewrite app_nil_l, imap_keys. apply NoDup_fmap_2; [|apply NoDup_seq].
    intros i j. apply index_key_inj.
  - rewrite imap_keys. intros Hin.
    apply list_elem_of_fmap in Hin as (i & Hi & _).
    by apply (index_key_not_proto i).
Qed.

(** * The injection check of [securityMiddleware] *)

Section InjectionFacts.

Context {number : Type} (regex_exec : nat → list N → nat → option nat).
Implicit Types (v obj : value number) (s : list N) (lastIndex : list nat).

#[local] Abbreviation fresh := (Forall (λ i : nat, i = 0%nat)).

Lemma fresh_lookup lastIndex p :
  fresh lastIndex → default 0%nat (lastIndex !! p) = 0%nat.
Proof.
  intros Hfresh. destruct (lastIndex !! p) as [i|] eqn:Hp; [|done].
  simpl. eapply Forall_forall in Hfresh; [exact Hfresh|].
  by eapply list_elem_of_lookup_2.
Qed.

Lemma fresh_reset lastIndex p :
  fresh lastIndex → <[p:=0%nat]> lastIndex = lastIndex.
Proof.
  intros Hfresh. apply list_insert_id'. intros Hlt.
  destruct (lastIndex !! p) as [i|] eqn:Hp.
  - f_equal. eapply Forall_forall in Hfresh; [exact Hfresh|].
    by eapply list_elem_of_lookup_2.
  - apply lookup_ge_None in Hp. lia.
Qed.

(** With every [lastIndex] at 0, a test is a search from the start, and a
    failed test leaves every [lastIndex] at 0. *)
Lemma test_fresh p s lastIndex :
  fresh lastIndex →
  (test regex_exec p s lastIndex).1 = bool_decide (is_Some (regex_exec p s 0))
  ∧ ((test regex_exec p s lastIndex).1 = false →
     (test regex_exec p s lastIndex).2 = lastIndex).
Proof.
  intros Hfresh. unfold test. rewrite (fresh_lookup _ _ Hfresh).
  destruct (regex_exec p s 0) as [e|]; simpl.
  - done.
  - split; [done|]. intros _. by apply fresh_reset.
Qed.

Lemma some_pattern_fresh patterns s lastIndex :
  fresh lastIndex →
  (some_pattern regex_exec patterns s lastIndex).1
  = existsb (λ p, bool_decide (is_Some (regex_exec p s 0))) patterns
  ∧ ((some_pattern regex_exec patterns s lastIndex).1 = false →
     (some_pattern regex_exec patterns s lastIndex).2 = lastIndex).
Proof.
  intros Hfresh. induction patterns as [|p patterns IH]; [done|].
  simpl. destruct (test_fresh p s lastIndex Hfresh) as [Hfound Hkept].
  destruct (test regex_exec p s lastIndex) as [found lastIndex'].
  simpl in Hfound, Hkept. rewrite <- Hfound.
  destruct found; [done|]. simpl. by rewrite (Hkept eq_refl).
Qed.

(** The two inner loops, over the values they visit. *)
Lemma check_values (values : list (value number)) :
  Forall (λ v, ∀ lastIndex, fresh lastIndex →
            (checkForInjection regex_exec v lastIndex).1
            = suspicious regex_exec v
            ∧ ((checkForInjection regex_exec v lastIndex).1 = false →
               (checkForInjection regex_exec v lastIndex).2 = lastIndex))
    values →
  ∀ lastIndex, fresh lastIndex →
    let result :=
      (fix some (values : list (value number)) (lastIndex : list nat) :=
         match values with
         | [] => (false, lastIndex)
         | v :: rest =>
             let '(found, lastIndex') :=
               checkForInjection regex_exec v lastIndex in
             if found then (true, lastIndex') else some rest lastIndex'
         end) values lastIndex in
    result.1 = existsb (suspicious regex_exec) values
    ∧ (result.1 = false → result.2 = lastIndex).
Proof.
  induction 1 as [|v values Hv _ IH]; intros lastIndex Hfresh; [done|].
  cbv zeta. destruct (Hv lastIndex Hfresh) as [Hfound Hkept].
  destruct (checkForInjection regex_exec v lastIndex) as [found lastIndex'].
  simpl in Hfound, Hkept. cbn [existsb]. rewrite <- Hfound.
  destruct found; [done|]. rewrite (Hkept eq_refl). by apply IH.
Qed.

Lemma check_entries (entries : list (list N * value number)) :
  Forall (λ entry, ∀ lastIndex, fresh lastIndex →
            (checkForInjection regex_exec entry.2 lastIndex).1
            = suspicious regex_exec entry.2
            ∧ ((checkForInjection regex_exec entry.2 lastIndex).1 = false →
               (checkForInjection regex_exec entry.2 lastIndex).2 = lastIndex))
    entries →
  ∀ lastIndex, fresh lastIndex →
    let result :=
      (fix some (entries : list (list N * value number)) (lastIndex : list nat) :=
         match entries with
         | [] => (false, lastIndex)
         | (_, v) :: rest =>
             let '(found, lastIndex') :=
               checkForInjection regex_exec v lastIndex in
             if found then (true, lastIndex') else some rest lastIndex'
         end) entries lastIndex in
    result.1 = existsb (λ entry, suspicious regex_exec entry.2) entries
    ∧ (result.1 = false → result.2 = lastIndex).
Proof.
  induction 1 as [|[k v] entries Hv _ IH]; intros lastIndex Hfresh; [done|].
  cbv zeta. simpl in Hv. destruct (Hv lastIndex Hfresh) as [Hfound Hkept].
  destruct (checkForInjection regex_exec v lastIndex) as [found lastIndex'].
  simpl in Hfound, Hkept. cbn [existsb snd]. rewrite <- Hfound.
  destruct found; [done|]. rewrite (Hkept eq_refl). by apply IH.
Qed.

Lemma check_fresh obj lastIndex :
  fresh lastIndex →
  (checkForInjection regex_exec obj lastIndex).1 = suspicious regex_exec obj
  ∧ ((checkForInjection regex_exec obj lastIndex).1 = false →
     (checkForInjection regex_exec obj lastIndex).2 = lastIndex).
Proof.
  revert lastIndex.
  induction obj as [| b | n | s | items IH | proto props _ IH]
    using value_induction; intros lastIndex Hfresh; try done.
  - by apply some_pattern_fresh.
  - by apply (check_values items IH).
  - by apply (check_entries props IH).
Qed.

End InjectionFacts.

(** X17.  The [g] flag does no harm: although each pattern remembers where
    its last match ended, [checkForInjection], started with the four fresh
    patterns of a request, answers [true] exactly when some string among
    the values of the body, at any depth, matches some pattern searched
    from its start; and as long as nothing matched, every [lastIndex] is
    still 0.  Property names and prototypes are not looked at: an object is
    checked as the array of its values. *)
Theorem checkForInjection_stateless {number : Type} regex_exec
    (obj : value number) :
  (checkForInjection regex_exec obj [0; 0; 0; 0]%nat).1
  = suspicious regex_exec obj
  ∧ (suspicious regex_exec obj = false →
     (checkForInjection regex_exec obj [0; 0; 0; 0]%nat).2 = [0; 0; 0; 0]%nat)
  ∧ match obj with
    | VObj _ props =>
        suspicious regex_exec obj = suspicious regex_exec (VArr props.*2)
    | _ => True
    end.
Proof.
  assert (Forall (λ i : nat, i = 0%nat) [0; 0; 0; 0]%nat) as Hfresh
    by (repeat constructor).
  destruct (check_fresh regex_exec obj _ Hfresh) as [Hfound Hkept].
  split_and!; [done| |].
  - intros Hclean. apply Hkept. by rewrite Hfound.
  - destruct obj as [| | | | |proto props]; try done.
    clear Hfound Hkept. simpl.
    induction props as [|[k v] props IH]; [done|].
    simpl. by rewrite IH.
Qed.

(** * The connection test, the request counters and the product route *)

Section ConnectionFacts.

Context (outcome : nat → attempt).

Lemma connection_loop_result retries i left :
  (connection_loop outcome retries i left).1 = true
  ↔ ∃ j, (i ≤ j < i + left)%nat ∧ outcome j = Succeeds.
Proof.
  revert i. induction left as [|left IH]; intros i; simpl.
  - split; [done|]. intros (j & Hj & _). lia.
  - destruct (outcome i) eqn:Hi.
    + specialize (IH (S i)).
      destruct (connection_loop outcome retries (S i) left) as [r ev]. simpl in *.
      rewrite IH. split; intros (j & Hj & Hs).
      * exists j. split; [lia|done].
      * exists j. split; [|done].
        destruct (decide (j = i)) as [->|]; [congruence|lia].
    + specialize (IH (S i)).
      destruct (connection_loop outcome retries (S i) left) as [r ev]. simpl in *.
      rewrite IH. split; intros (j & Hj & Hs).
      * exists j. split; [lia|done].
      * exists j. split; [|done].
        destruct (decide (j = i)) as [->|]; [congruence|lia].
    + simpl. split; [|done]. intros _. exists i. split; [lia|done].
Qed.

Lemma sleeps_app (a b : list db_event) :
  length (filter (λ e, is_sleep e = true) (a ++ b))
  = (length (filter (λ e, is_sleep e = true) a)
     + length (filter (λ e, is_sleep e = true) b))%nat.
Proof. by rewrite filter_app, length_app. Qed.

(** The pauses of the loop from turn [i]: one after each failed attempt but
    the one numbered [retries - 1]. *)
Lemma connection_loop_sleeps retries i left :
  (i + left = retries)%nat →
  let run := connection_loop outcome retries i left in
  (length (filter (λ e, is_sleep e = true) run.2) ≤ left - 1)%nat
  ∧ (run.1 = false →
     length (filter (λ e, is_sleep e = true) run.2) = (left - 1)%nat).
Proof.
  revert i. induction left as [|left IH]; intros i Hsum; [done|].
  cbv zeta. simpl.
  assert (∀ connected,
            length (filter (λ e, is_sleep e = true) connected) = 0%nat →
            let run := connection_loop outcome retries (S i) left in
            let events :=
              connected ++ (if (i <? retries - 1)%nat then [Slept 2000] else [])
              ++ run.2 in
            (length (filter (λ e, is_sleep e = true) events) ≤ S left - 1)%nat
            ∧ (run.1 = false →
               length (filter (λ e, is_sleep e = true) events) = (S left - 1)%nat))
    as Hfail.
  { intros connected Hnone. cbv zeta.
    destruct (IH (S i)) as [Hle Heq]; [lia|].
    rewrite !sleeps_app, Hnone.
    destruct (Nat.ltb_spec i (retries - 1)) as [Hlt|Hge].
    - change (length (filter (λ e, is_sleep e = true) [Slept 2000])) with 1%nat.
      split; [lia|]. intros Hr. specialize (Heq Hr). lia.
    - change (length (filter (λ e : db_event, is_sleep e = true) [])) with 0%nat.
      assert (left = 0%nat) as -> by lia. simpl. split; [lia|done]. }
  destruct (outcome i).
  - specialize (Hfail [] eq_refl).
    destruct (connection_loop outcome retries (S i) left) as [r ev]. exact Hfail.
  - specialize (Hfail [Connected] eq_refl).
    destruct (connection_loop outcome retries (S i) left) as [r ev]. exact Hfail.
  - simpl. split; [lia|done].
Qed.

Lemma checked_out_app (a b : list db_event) :
  checked_out (a ++ b) = checked_out a + checked_out b.
Proof.
  induction a as [|[| |ms] a IH]; simpl; lia.
Qed.

End ConnectionFacts.

(** X18.  [testConnection] returns [true] exactly when one of the first
    [retries] attempts succeeds.  It pauses at most [retries - 1] times
    (two seconds each), and exactly that often when every attempt fails:
    there is no pause after the last attempt. *)
Theorem testConnection_result retries outcome :
  ((testConnection retries outcome).1 = true
   ↔ ∃ i, (i < retries)%nat ∧ outcome i = Succeeds)
  ∧ (length (filter (λ e, is_sleep e = true) (testConnection retries outcome).2)
     ≤ retries - 1)%nat
  ∧ ((testConnection retries outcome).1 = false →
     length (filter (λ e, is_sleep e = true) (testConnection retries outcome).2)
     = (retries - 1)%nat).
Proof.
  unfold testConnection. split_and!.
  - rewrite connection_loop_result. split; intros (j & Hj & Hs);
      exists j; (split; [lia|done]).
  - by apply (connection_loop_sleeps outcome retries 0 retries).
  - by apply (connection_loop_sleeps outcome retries 0 retries).
Qed.

(** X19.  Each attempt in which the connection is obtained and the query
    then throws leaves its client checked out: when [testConnection]
    returns, the clients taken from the pool and not released are as many
    as the attempts made whose query failed. *)
Theorem testConnection_leaks retries outcome :
  checked_out (testConnection retries outcome).2
  = Z.of_nat
      (length (filter (λ a, query_failed a = true)
                 (attempts_made outcome 0 retries))).
Proof.
  unfold testConnection. generalize 0%nat at 1 2. generalize retries at 2 3.
  intros left. induction left as [|left IH]; intros i; [done|].
  simpl. specialize (IH (S i)).
  destruct (outcome i) eqn:Hi.
  - destruct (connection_loop outcome retries (S i) left) as [r ev]. simpl in *.
    rewrite ?filter_cons_False by done.
    rewrite !checked_out_app, IH. by destruct (i <? retries - 1)%nat.
  - destruct (connection_loop outcome retries (S i) left) as [r ev]. simpl in *.
    rewrite ?filter_cons_True by done.
    rewrite !checked_out_app, IH.
    destruct (i <? retries - 1)%nat; simpl; lia.
  - done.
Qed.

Section MonitorFacts.

Lemma logRequests_snoc calls success m :
  logRequests (calls ++ [success]) m
  = let '(m', line) := logRequest success (logRequests calls m).1 in
    (m', (logRequests calls m).2 ++ from_option (λ l, [l]) [] line).
Proof. unfold logRequests. by rewrite foldl_app. Qed.

Lemma count_bools (calls : list bool) :
  (length (filter (λ c, c = false) calls)
   + length (filter (λ c, c = true) calls) = length calls)%nat.
Proof.
  induction calls as [|[] calls IH]; [done| |].
  - rewrite filter_cons_False, filter_cons_True by done. simpl. lia.
  - rewrite filter_cons_True, filter_cons_False by done. simpl. lia.
Qed.

(** One call: the counter that moves, and the line printed. *)
Lemma logRequest_step (success : bool) m :
  let total := errorCount m + successCount m + 1 in
  let e' := if success then errorCount m else errorCount m + 1 in
  let s' := if success then successCount m + 1 else successCount m in
  logRequest success m
  = ({| errorCount := e'; successCount := s' |},
     if total mod 1000 =? 0 then Some (e', total) else None).
Proof.
  cbv zeta. unfold logRequest.
  destruct success; cbn [errorCount successCount];
    [replace (errorCount m + (successCount m + 1))
       with (errorCount m + successCount m + 1) by lia
    |replace (errorCount m + 1 + successCount m)
       with (errorCount m + successCount m + 1) by lia];
    by destruct (_ =? 0).
Qed.

End MonitorFacts.

(** X20.  The counters of [logRequest] only count: after any sequence of
    calls, [errorCount] and [successCount] have grown by the number of
    failed and of successful requests (nothing ever resets them), and a
    statistics line has been printed each time the total reached a multiple
    of 1000, so [(total after) / 1000 - (total before) / 1000] lines in
    all, each showing a total that is a multiple of 1000. *)
Theorem logRequest_counts calls m :
  0 ≤ errorCount m + successCount m →
  errorCount (logRequests calls m).1
  = errorCount m + Z.of_nat (length (filter (λ c, c = false) calls))
  ∧ successCount (logRequests calls m).1
    = successCount m + Z.of_nat (length (filter (λ c, c = true) calls))
  ∧ Z.of_nat (length (logRequests calls m).2)
    = (errorCount m + successCount m + Z.of_nat (length calls)) / 1000
      - (errorCount m + successCount m) / 1000
  ∧ Forall (λ line, line.2 mod 1000 = 0) (logRequests calls m).2.
Proof.
  intros Hpos.
  induction calls as [|success calls IH] using rev_ind.
  - simpl. split_and!; [lia|lia| |done]. rewrite Z.add_0_r. lia.
  - rewrite logRequests_snoc, logRequest_step.
    destruct IH as (He & Hs & Hlines & Hall).
    pose proof (count_bools calls) as Hcount.
    destruct (logRequests calls m) as [m1 lines]. cbn [fst snd] in *.
    rewrite !filter_app, !length_app, !Nat2Z.inj_add.
    assert (errorCount m1 + successCount m1
            = errorCount m + successCount m + Z.of_nat (length calls))
      as Htotal by lia.
    rewrite Htotal.
    set (t := errorCount m + successCount m + Z.of_nat (length calls)) in *.
    assert (0 ≤ t) as Ht by lia.
    pose proof (Z.div_mod (t + 1) 1000 ltac:(lia)) as Hdm1.
    pose proof (Z.div_mod t 1000 ltac:(lia)) as Hdm.
    pose proof (Z.mod_pos_bound (t + 1) 1000 ltac:(lia)) as Hb1.
    pose proof (Z.mod_pos_bound t 1000 ltac:(lia)) as Hb.
    replace (errorCount m + successCount m
             + (Z.of_nat (length calls) + Z.of_nat (length [success])))
      with (t + 1) by (subst t; simpl; lia).
    split_and!.
    + destruct success; cbn [errorCount];
        [rewrite filter_cons_False by done|rewrite filter_cons_True by done];
        simpl; lia.
    + destruct success; cbn [successCount];
        [rewrite filter_cons_True by done|rewrite filter_cons_False by done];
        simpl; lia.
    + destruct (Z.eqb_spec ((t + 1) mod 1000) 0) as [Hmod|Hmod];
        cbn [from_option]; rewrite ?app_nil_r, ?length_app; simpl; lia.
    + destruct (Z.eqb_spec ((t + 1) mod 1000) 0) as [Hmod|Hmod];
        cbn [from_option]; rewrite ?app_nil_r; [|done].
      apply Forall_app. split; [done|]. by constructor.
Qed.

Lemma logRequest_counts_witness :
  let fresh := {| errorCount := 0; successCount := 0 |} in
  let calls := replicate 1999 true ++ [false; true] in
  0 ≤ errorCount fresh + successCount fresh
  ∧ errorCount (logRequests calls fresh).1 = 1
  ∧ successCount (logRequests calls fresh).1 = 2000
  ∧ (logRequests calls fresh).2 = [(0, 1000); (1, 2000)].
Proof.
  cbv zeta.
  assert (0 ≤ errorCount {| errorCount := 0; successCount := 0 |}
              + successCount {| errorCount := 0; successCount := 0 |}) as Hpos
    by done.
  pose proof (logRequest_counts (replicate 1999 true ++ [false; true])
                {| errorCount := 0; successCount := 0 |} Hpos) as (He & Hs & _).
  split_and!; [exact Hpos | | | vm_compute; reflexivity].
  - rewrite He. vm_compute. reflexivity.
  - rewrite Hs. vm_compute. reflexivity.
Defined.

(** X21.  [GET /api/products/:id] hands out a product only to its owner: the
    reply is the product exactly when the gate accepted the request, the
    row exists, and its [user_id] is the [id] of the verified payload.  No
    other request obtains a product. *)
Theorem product_only_to_owner jwt cfg findById authHeader id now st p :
  getProduct jwt cfg findById authHeader id now st = ProductJson p
  ↔ ∃ user,
      authenticateToken jwt cfg authHeader now st = Next user
      ∧ findById id = DbRow p
      ∧ product_user_id p = Some (pl_id user).
Proof.
  unfold getProduct. split.
  - destruct (authenticateToken jwt cfg authHeader now st) as [user|]; [|done].
    destruct (findById id) as [q| |]; [|done..].
    destruct (decide (product_user_id q = Some (pl_id user))); [|done].
    intros [= ->]. by exists user.
  - intros (user & -> & -> & Howner). by rewrite decide_True.
Qed.

(** * Revocation and the length of a token's life *)

Lemma RefJwt_decodes : jwt_decodes RefJwt.lib.
Proof.
  intros p secret expiresIn. simpl.
  unfold RefJwt.sign, RefJwt.decode, RefJwt.tag.
  change (Ascii.eqb "J" "J") with true. cbv iota.
  by rewrite RefJwtFacts.get_body_put.
Qed.

(** X22.  With an access-token lifetime of at most one hour the hourly
    clean-up is harmless: once an issued token has been revoked, the gate
    never accepts it again.  Whatever calls and clean-ups happen up to the
    time of a request presenting it, the answer is [Revoked] or [Expired]:
    a clean-up can only drop the entry when the token has expired. *)
Theorem short_lived_tokens_stay_revoked
    jwt cfg userId email issued before after now :
  jwt_sound jwt →
  jwt_expiring jwt →
  jwt_decodes jwt →
  JWT_EXPIRES_IN cfg ≤ 3600 →
  Forall (λ turn : Z * call, turn.1 ≤ now) after →
  authenticateToken jwt cfg
    (Some ("Bearer " +:+ accessToken (generateTokens jwt cfg userId email issued)))
    now
    (run jwt cfg after
       (revokeToken (accessToken (generateTokens jwt cfg userId email issued))
          (run jwt cfg before initial)))
  ∈ [Revoked; Expired].
Proof.
  intros Hsound Hexp Hdec Hlife Htimes.
  set (token := accessToken (generateTokens jwt cfg userId email issued)).
  set (st := run jwt cfg after (revokeToken token (run jwt cfg before initial))).
  assert (bearer (Some ("Bearer " +:+ token)) = Some token) as Hb.
  { change ("Bearer " +:+ token) with ("Bearer" +:+ String " " token).
    apply bearer_token; [done|apply (sign_lacks_space _ Hsound)]. }
  assert (token ≠ EmptyString) as Hne by apply (sign_nonempty _ Hsound).
  destruct (JsSet.has token (tokenBlacklist st)) eqn:Hhas.
  - apply has_true in Hhas.
    rewrite (authenticate_listed jwt cfg _ token now st Hb Hne Hhas). left.
  - subst token. rewrite gate_verifies_issued, verify_issued by done.
    destruct (Z.leb_spec (issued / 1000 + JWT_EXPIRES_IN cfg) (now / 1000))
      as [Hle|Hlt]; [right; left|].
    exfalso. apply has_false in Hhas. apply Hhas.
    apply run_keeps; [apply revoke_listed|].
    unfold spared. eapply Forall_impl; [exact Htimes|].
    intros [t c] Ht _. simpl in *. unfold swept, generateTokens.
    cbn [accessToken]. rewrite Hdec. simpl. apply Z.ltb_ge.
    pose proof (Z.mod_pos_bound now 1000 eq_refl).
    pose proof (Z.div_mod now 1000). lia.
Qed.

Lemma short_lived_tokens_stay_revoked_witness :
  let cfg := {| JWT_SECRET := "access-secret"; JWT_EXPIRES_IN := 3600;
                JWT_REFRESH_SECRET := "refresh-secret" |} in
  let token := accessToken (generateTokens RefJwt.lib cfg 1 "a@x.com" Scenario.t0) in
  let before := Scenario.logouts Scenario.t0 99 in
  let after := [(Scenario.t0 + 2 * Scenario.hour, Timer)] in
  let now := Scenario.t0 + 3 * Scenario.hour in
  jwt_sound RefJwt.lib ∧ jwt_expiring RefJwt.lib ∧ jwt_decodes RefJwt.lib
  ∧ JWT_EXPIRES_IN cfg ≤ 3600
  ∧ Forall (λ turn : Z * call, turn.1 ≤ now) after
  ∧ JsSet.has token
      (tokenBlacklist
         (run RefJwt.lib cfg after
            (revokeToken token (run RefJwt.lib cfg before initial)))) = false
  ∧ authenticateToken RefJwt.lib cfg (Some ("Bearer " +:+ token)) now
      (run RefJwt.lib cfg after
         (revokeToken token (run RefJwt.lib cfg before initial)))
    ∈ [Revoked; Expired].
Proof.
  cbv zeta.
  assert (Forall (λ turn : Z * call,
                    turn.1 ≤ Scenario.t0 + 3 * Scenario.hour)
            [(Scenario.t0 + 2 * Scenario.hour, Timer)]) as Htimes.
  { repeat constructor. vm_compute. discriminate. }
  split_and!;
    [apply RefJwtFacts.sound | apply RefJwtLaws.expiring | apply RefJwt_decodes
    | discriminate | exact Htimes | vm_compute; reflexivity |].
  exact (short_lived_tokens_stay_revoked RefJwt.lib
           {| JWT_SECRET := "access-secret"; JWT_EXPIRES_IN := 3600;
              JWT_REFRESH_SECRET := "refresh-secret" |}
           1 "a@x.com" Scenario.t0 (Scenario.logouts Scenario.t0 99)
           [(Scenario.t0 + 2 * Scenario.hour, Timer)]
           (Scenario.t0 + 3 * Scenario.hour)
           RefJwtFacts.sound RefJwtLaws.expiring RefJwt_decodes
           ltac:(discriminate) Htimes).
Defined.
